(** * The mount-point registry of RtspRestreamServer

    A shallow embedding of [RestreamServer/RtspMountPoints.cpp]: the
    path table [pathsRefs], the client table [clientsToPaths], the channel
    counter [proxy], and the two entry points [make_path] (the framework's
    path-resolution hook) and [client_closed] (the handler of a client's
    "closed" signal).

    Conventions.
    - [uint32_t] reference counts and the [uint64_t] counter are values of
      [Z] with the wrap-around of the C++ types written out.
    - [std::map] is [gmap], [std::set<std::string>] is [gset string]; the
      loop over a set visits it in the order of [std::string]'s [operator<].
    - The mount table of the GStreamer base object ([parent_instance]) is a
      [gmap] from mount path to the factory mounted there.
    - Calls that leave the object (logging, [assert], [g_signal_connect],
      construction of media factories) are recorded, in program order, in
      the list of [Effect]s each entry point returns. *)

From Stdlib Require Import ZArith.
From stdpp Require Import gmap strings list fin_maps sorting pretty.

Open Scope Z_scope.

(** ** Constants *)

(** [static const gchar* RecordSuffix = "?record";] *)
Definition RecordSuffix : string := "?record".

(** [#define STATIC_SERVER_PORT 8000] and its stringification. *)
Definition STATIC_SERVER_PORT : Z := 8000.
Definition STATIC_SERVER_PORT_STR : string := "8000".

(** The configuration macros [MAX_PATHS_COUNT], [MAX_CLIENTS_PER_PATH] and
    the splash source [BLUE] are defined in headers that are not part of the
    sources at hand; they are parameters of the model.  The limits are
    integer constants; [0] (or less) switches a limit off. *)
Record Config := {
  MAX_PATHS_COUNT : Z;
  MAX_CLIENTS_PER_PATH : Z;
  BLUE : string
}.

(** ** Machine integers *)

Definition uint32_t (z : Z) : Z := z mod 2 ^ 32.
Definition uint64_t (z : Z) : Z := z mod 2 ^ 64.

(** ** Data of the framework seen by the registry *)

(** [GstRTSPClient*]: an address. *)
Definition GstRTSPClient : Type := N.

(** The two fields of [GstRTSPUrl] the registry reads; [query] is [NULL]
    when the URL has no query part. *)
Record GstRTSPUrl := {
  abspath : string;
  query : option string
}.

(** A [GstRTSPToken] is a structure of named string fields. *)
Definition GST_RTSP_TOKEN_MEDIA_FACTORY_ROLE : string := "media.factory.role".

Definition gst_rtsp_token_get_string
    (token : gmap string string) (field : string) : option string :=
  token !! field.

Record GstRTSPContext := {
  client : GstRTSPClient;
  token : option (gmap string string)
}.

(** The media factories built for a path; both carry the channel name. *)
Inductive MediaFactory :=
  | RtspPlayMediaFactory (splashSource : string) (proxyName : string)
  | RtspRecordMediaFactory (proxyName : string).

Global Instance MediaFactory_eq_dec : EqDecision MediaFactory.
Proof. solve_decision. Defined.

(** ** Effects *)

Inductive LogLevel := debug | info | critical.

Inductive LogArg :=
  | ArgPtr (c : GstRTSPClient)
  | ArgStr (s : string)
  | ArgInt (z : Z).

Inductive Effect :=
  | Log (level : LogLevel) (format : string) (args : list LogArg)
  | Assert (holds : bool)
  | g_signal_connect (instance : GstRTSPClient) (signal : string)
  | rtsp_play_media_factory_new (splashSource : string) (proxyName : string)
  | rtsp_record_media_factory_new (proxyName : string).

Global Instance LogLevel_eq_dec : EqDecision LogLevel.
Proof. solve_decision. Defined.
Global Instance LogArg_eq_dec : EqDecision LogArg.
Proof. solve_decision. Defined.
Global Instance Effect_eq_dec : EqDecision Effect.
Proof. solve_decision. Defined.

(** ** The registry object *)

(** [MountPointsCallbacks]: a bundle of optional handlers, of which the
    registry calls [authorizeAccess (user, path)]. *)
Record MountPointsCallbacks := {
  authorizeAccess : option (string → string → bool)
}.

Record CxxPrivate := {
  callbacks : MountPointsCallbacks;
  pathsRefs : gmap string Z;
  clientsToPaths : gmap GstRTSPClient (gset string)
}.

Record RtspMountPoints := {
  parent_instance : gmap string MediaFactory;
  proxy : Z;
  p : CxxPrivate
}.

(** What an entry point hands back: its return value, the effects it had on
    the outside, and the object afterwards. *)
Record Ret (A : Type) := mkRet {
  value : A;
  effects : list Effect;
  after : RtspMountPoints
}.
Arguments mkRet {A} _ _ _.
Arguments value {A} _.
Arguments effects {A} _.
Arguments after {A} _.

(** [rtsp_mount_points_init] followed by the assignment of the callbacks in
    [rtsp_mount_points_new]. *)
Definition rtsp_mount_points_new (cb : MountPointsCallbacks) : RtspMountPoints :=
  {| parent_instance := ∅;
     proxy := 0;
     p := {| callbacks := cb; pathsRefs := ∅; clientsToPaths := ∅ |} |}.

(** ** Library functions *)

(** [g_strcmp0]: comparison of two possibly-[NULL] strings, [NULL] first. *)
Definition g_strcmp0 (str1 str2 : option string) : Z :=
  match str1, str2 with
  | None, None => 0
  | None, Some _ => -1
  | Some _, None => 1
  | Some s1, Some s2 =>
      match String.compare s1 s2 with Eq => 0 | Lt => -1 | Gt => 1 end
  end.

(** [std::map::emplace]: inserts only when the key is absent. *)
Definition emplace `{Countable K} {V} (k : K) (v : V) (m : gmap K V) : gmap K V :=
  match m !! k with
  | Some _ => m
  | None => <[k := v]> m
  end.

(** [gst_rtsp_mount_points_add_factory] replaces what is mounted at [path];
    [gst_rtsp_mount_points_remove_factory] drops it. *)
Definition gst_rtsp_mount_points_add_factory
    (mounts : gmap string MediaFactory) (path : string) (f : MediaFactory) :=
  <[path := f]> mounts.

Definition gst_rtsp_mount_points_remove_factory
    (mounts : gmap string MediaFactory) (path : string) :=
  delete path mounts.

(** [fmt::format("proxy{}", n)] *)
Definition format_proxy (n : Z) : string := "proxy" +:+ pretty n.

(** ** [authorize_access] *)

Definition authorize_access
    (self : RtspMountPoints) (context : GstRTSPContext) (url : GstRTSPUrl) : bool :=
  match authorizeAccess (callbacks (p self)) with
  | Some authorize =>
      let user :=
        match token context with
        | Some t => gst_rtsp_token_get_string t GST_RTSP_TOKEN_MEDIA_FACTORY_ROLE
        | None => None
        end in
      authorize (default "" user) (abspath url)
  | None => true
  end.

(** ** [make_path] *)

Definition isRecord (url : GstRTSPUrl) : bool :=
  g_strcmp0 (query url) (Some "record") =? 0.

Definition splashSource (cfg : Config) : string :=
  "rtsp://localhost:" +:+ STATIC_SERVER_PORT_STR +:+ BLUE cfg.

Definition make_path
    (cfg : Config) (self : RtspMountPoints)
    (context : option GstRTSPContext) (url : GstRTSPUrl) : Ret (option string) :=
  match context with
  | None => mkRet None [Assert false] self
  | Some context =>
    if negb (authorize_access self context url) then mkRet None [Assert true] self
    else
      let path := abspath url in
      let e0 :=
        [Assert true;
         Log debug "make_path. client: {}, path: {}"
           [ArgPtr (client context); ArgStr path]] in
      let pathRefsIt := pathsRefs (p self) !! path in
      if (0 <? MAX_PATHS_COUNT cfg)
         && bool_decide (pathRefsIt = None)
         && (MAX_PATHS_COUNT cfg <=? Z.of_nat (size (pathsRefs (p self))))
      then
        mkRet None
          (e0 ++ [Log info "Max paths count reached. client: {}, path: {}, count {}"
                    [ArgPtr (client context); ArgStr path;
                     ArgInt (MAX_PATHS_COUNT cfg)]])
          self
      else if (0 <? MAX_CLIENTS_PER_PATH cfg)
         && match pathRefsIt with
            | Some refs => MAX_CLIENTS_PER_PATH cfg <=? refs
            | None => false
            end
      then
        mkRet None
          (e0 ++ [Log info "Max clients count per path reached. client: {}, path: {}, count {}"
                    [ArgPtr (client context); ArgStr path;
                     ArgInt (MAX_PATHS_COUNT cfg)]])
          self
      else
        let '(addPathRef, e1, clientsToPaths') :=
          match clientsToPaths (p self) !! client context with
          | None =>
              (true,
               [Log debug "Path request from new client. client: {}, path: {}"
                  [ArgPtr (client context); ArgStr path];
                g_signal_connect (client context) "closed"],
               emplace (client context) {[path]} (clientsToPaths (p self)))
          | Some paths =>
              (negb (bool_decide (path ∈ paths)),
               [Log debug "Client requesting path. client: {}, path: {}"
                  [ArgPtr (client context); ArgStr path]],
               <[client context := {[path]} ∪ paths]> (clientsToPaths (p self)))
          end in
        let '(e2, mounts', proxy', pathsRefs') :=
          match pathRefsIt with
          | None =>
              let proxyName := format_proxy (proxy self) in
              let playFactory := RtspPlayMediaFactory (splashSource cfg) proxyName in
              let recordFactory := RtspRecordMediaFactory proxyName in
              let recordUrl := abspath url +:+ RecordSuffix in
              ([Log debug "Creating mount point. client: {}, path: {}"
                  [ArgPtr (client context); ArgStr path];
                Assert addPathRef;
                rtsp_play_media_factory_new (splashSource cfg) proxyName;
                rtsp_record_media_factory_new proxyName],
               gst_rtsp_mount_points_add_factory
                 (gst_rtsp_mount_points_add_factory
                    (parent_instance self) (abspath url) playFactory)
                 recordUrl recordFactory,
               uint64_t (proxy self + 1),
               emplace path 1 (pathsRefs (p self)))
          | Some refs =>
              let refs' := uint32_t (refs + 1) in
              ([Log debug "Path ref count increased. client: {}, path: {}, refs: {}"
                  [ArgPtr (client context); ArgStr path; ArgInt refs']],
               parent_instance self,
               proxy self,
               <[path := refs']> (pathsRefs (p self)))
          end in
        mkRet
          (Some (if isRecord url then abspath url +:+ "?record" else abspath url))
          (e0 ++ e1 ++ e2)
          {| parent_instance := mounts';
             proxy := proxy';
             p := {| callbacks := callbacks (p self);
                     pathsRefs := pathsRefs';
                     clientsToPaths := clientsToPaths' |} |}
  end.

(** ** [client_closed] *)

(** The body of the loop over the paths the closing client holds. *)
Definition client_closed_path
    (client : GstRTSPClient) (acc : list Effect * RtspMountPoints) (path : string)
    : list Effect * RtspMountPoints :=
  let '(es, self) := acc in
  match pathsRefs (p self) !! path with
  | None =>
      (es ++ [Log critical "Inconsistent data in mount points reference counting" []],
       self)
  | Some refs =>
      let refs' := uint32_t (refs - 1) in
      if refs' =? 0 then
        let recordPath := path +:+ RecordSuffix in
        (es ++ [Log debug "Removing unused mount point. last client: {}, path: {}"
                  [ArgPtr client; ArgStr path]],
         {| parent_instance :=
              gst_rtsp_mount_points_remove_factory
                (gst_rtsp_mount_points_remove_factory (parent_instance self) path)
                recordPath;
            proxy := proxy self;
            p := {| callbacks := callbacks (p self);
                    pathsRefs := delete path (pathsRefs (p self));
                    clientsToPaths := clientsToPaths (p self) |} |})
      else
        (es ++ [Log debug "Path ref count decreased. client: {}, path: {}, refs: {}"
                  [ArgPtr client; ArgStr path; ArgInt refs']],
         {| parent_instance := parent_instance self;
            proxy := proxy self;
            p := {| callbacks := callbacks (p self);
                    pathsRefs := <[path := refs']> (pathsRefs (p self));
                    clientsToPaths := clientsToPaths (p self) |} |})
  end.

(** The order in which a [std::set<std::string>] is traversed. *)
Definition set_order (paths : gset string) : list string :=
  merge_sort String.le (elements paths).

Definition client_closed
    (self : RtspMountPoints) (client : GstRTSPClient) : Ret unit :=
  match clientsToPaths (p self) !! client with
  | None =>
      mkRet tt [Log debug "Client didn't use any path. client: {}" [ArgPtr client]] self
  | Some paths =>
      let '(es, self1) :=
        foldl (client_closed_path client) ([], self) (set_order paths) in
      mkRet tt es
        {| parent_instance := parent_instance self1;
           proxy := proxy self1;
           p := {| callbacks := callbacks (p self1);
                   pathsRefs := pathsRefs (p self1);
                   clientsToPaths := delete client (clientsToPaths (p self1)) |} |}
  end.

(** ** Sequences of calls *)

Inductive Call :=
  | CallMakePath (context : option GstRTSPContext) (url : GstRTSPUrl)
  | CallClientClosed (client : GstRTSPClient).

Definition step (cfg : Config) (self : RtspMountPoints) (c : Call)
    : list Effect * RtspMountPoints :=
  match c with
  | CallMakePath context url =>
      let r := make_path cfg self context url in (effects r, after r)
  | CallClientClosed client =>
      let r := client_closed self client in (effects r, after r)
  end.

Fixpoint run (cfg : Config) (self : RtspMountPoints) (calls : list Call)
    : list Effect * RtspMountPoints :=
  match calls with
  | [] => ([], self)
  | c :: calls =>
      let '(es, self1) := step cfg self c in
      let '(es', self2) := run cfg self1 calls in
      (es ++ es', self2)
  end.

(** ** Observations the statements are phrased with *)

(** The reference count of a path; [0] for a path that has no entry. *)
Definition refcount (self : RtspMountPoints) (path : string) : Z :=
  default 0 (pathsRefs (p self) !! path).

Definition in_table (self : RtspMountPoints) (path : string) : Prop :=
  is_Some (pathsRefs (p self) !! path).

(** Whether the client's held-path set contains the path. *)
Definition holds (self : RtspMountPoints) (c : GstRTSPClient) (path : string) : bool :=
  match clientsToPaths (p self) !! c with
  | Some paths => bool_decide (path ∈ paths)
  | None => false
  end.

(** The number of tracked clients whose held-path set contains the path. *)
Definition holders (self : RtspMountPoints) (path : string) : Z :=
  Z.of_nat (size (filter (λ cs, path ∈ cs.2) (clientsToPaths (p self)))).

(** A rejection returns [NULL]; the two capacity rejections are told apart
    by the line they log. *)
Definition rejected_paths (r : Ret (option string)) : Prop :=
  value r = None ∧
  ∃ args,
    Log info "Max paths count reached. client: {}, path: {}, count {}" args
      ∈ effects r.

Definition rejected_per_path (r : Ret (option string)) : Prop :=
  value r = None ∧
  ∃ args,
    Log info "Max clients count per path reached. client: {}, path: {}, count {}" args
      ∈ effects r.

(** Effects that touch neither the signal subscriptions nor any factory. *)
Definition silent (e : Effect) : Prop :=
  match e with
  | Log _ _ _ | Assert _ => True
  | _ => False
  end.

(** The channel names handed to newly built subscribe endpoints. *)
Definition channel_names (es : list Effect) : list string :=
  omap (λ e, match e with
             | rtsp_play_media_factory_new _ name => Some name
             | _ => None
             end) es.

(** What the loop body of [client_closed] does to the entry of a path. *)
Definition dec_ref (entry : option Z) : option Z :=
  match entry with
  | None => None
  | Some refs =>
      if uint32_t (refs - 1) =? 0 then None else Some (uint32_t (refs - 1))
  end.

(** Whether the loop body unmounts the path: its decremented count is 0. *)
Definition released (self : RtspMountPoints) (path : string) : bool :=
  match pathsRefs (p self) !! path with
  | Some refs => uint32_t (refs - 1) =? 0
  | None => false
  end.

(** Every entry of the path table carries a count between 1 and the largest
    [uint32_t]. *)
Definition table_positive (self : RtspMountPoints) : Prop :=
  ∀ path refs, pathsRefs (p self) !! path = Some refs → 0 < refs < 2 ^ 32.

(** The call does not increment a count that already is the largest
    [uint32_t]: a request that is admitted for a path with an entry finds a
    smaller count there.  Requests that are rejected, and disconnects,
    increment nothing. *)
Definition no_wrap (cfg : Config) (self : RtspMountPoints) (c : Call) : Prop :=
  match c with
  | CallMakePath context url =>
      ∀ refs,
        value (make_path cfg self context url) ≠ None →
        pathsRefs (p self) !! abspath url = Some refs →
        refs < 2 ^ 32 - 1
  | CallClientClosed _ => True
  end.

(** No call of the sequence, made one after the other from [self], does. *)
Fixpoint no_wrap_run (cfg : Config) (self : RtspMountPoints) (calls : list Call) : Prop :=
  match calls with
  | [] => True
  | c :: calls => no_wrap cfg self c ∧ no_wrap_run cfg (step cfg self c).2 calls
  end.

(** The two capacity checks of [make_path], in the order it makes them. *)
Definition paths_full (cfg : Config) (self : RtspMountPoints) (path : string) : bool :=
  (0 <? MAX_PATHS_COUNT cfg)
  && bool_decide (pathsRefs (p self) !! path = None)
  && (MAX_PATHS_COUNT cfg <=? Z.of_nat (size (pathsRefs (p self)))).

Definition clients_full (cfg : Config) (self : RtspMountPoints) (path : string) : bool :=
  (0 <? MAX_CLIENTS_PER_PATH cfg)
  && match pathsRefs (p self) !! path with
     | Some refs => MAX_CLIENTS_PER_PATH cfg <=? refs
     | None => false
     end.

(** What the client table becomes when a request is admitted. *)
Definition admit_client (self : RtspMountPoints) (c : GstRTSPClient) (path : string)
    : gmap GstRTSPClient (gset string) :=
  match clientsToPaths (p self) !! c with
  | None => <[c := {[path]}]> (clientsToPaths (p self))
  | Some paths => <[c := {[path]} ∪ paths]> (clientsToPaths (p self))
  end.

(** Effects that report no broken bookkeeping: neither a failed [assert] nor
    a log line of level [critical]. *)
Definition calm (e : Effect) : Prop :=
  match e with
  | Assert false => False
  | Log critical _ _ => False
  | _ => True
  end.

(** The call is not a [make_path] outside of a request context. *)
Definition with_context (c : Call) : Prop :=
  match c with
  | CallMakePath None _ => False
  | _ => True
  end.

(** The character [?] (code 63). *)
Definition question_mark : Ascii.ascii := Ascii.ascii_of_nat 63.

(** Whether a string contains a question mark.  The absolute path of a
    parsed URL does not: the parser cuts the URL at the first one. *)
Fixpoint has_qmark (s : string) : bool :=
  match s with
  | EmptyString => false
  | String a s => Ascii.eqb a question_mark || has_qmark s
  end.

Definition plain_call (c : Call) : Prop :=
  match c with
  | CallMakePath _ url => has_qmark (abspath url) = false
  | CallClientClosed _ => True
  end.

(** The mount table mirrors the path table: every path with an entry has a
    subscribe endpoint at the path and a publish endpoint at the path
    followed by [?record], both on one channel, and nothing else is
    mounted. *)
Definition mounted_pairs (cfg : Config) (self : RtspMountPoints) : Prop :=
  (∀ path, in_table self path →
     has_qmark path = false ∧
     ∃ name,
       parent_instance self !! path
         = Some (RtspPlayMediaFactory (splashSource cfg) name) ∧
       parent_instance self !! (path +:+ RecordSuffix)
         = Some (RtspRecordMediaFactory name)) ∧
  (∀ k, is_Some (parent_instance self !! k) →
     in_table self k ∨ ∃ path, k = path +:+ RecordSuffix ∧ in_table self path).

(** Counts are positive and no count is below the number of holders. *)
Definition consistent (self : RtspMountPoints) : Prop :=
  table_positive self ∧ ∀ path, holders self path ≤ refcount self path.

(** Every entry of the path table carries a count between 1 and [L]. *)
Definition within_limit (L : Z) (self : RtspMountPoints) : Prop :=
  ∀ path refs, pathsRefs (p self) !! path = Some refs → 0 < refs ≤ L.

(** The client on whose behalf a call is made, if any. *)
Definition caller (c : Call) : option GstRTSPClient :=
  match c with
  | CallMakePath context _ => client <$> context
  | CallClientClosed c => Some c
  end.

(** Membership of a log line in an explicit list of effects. *)
Ltac absent_effect H :=
  simpl in H;
  repeat (apply elem_of_cons in H as [H|H]; [discriminate H|]);
  by apply elem_of_nil in H.

Ltac present_effect :=
  simpl; repeat first [ by left | apply elem_of_cons; right ].

(** ** Concrete data used in examples *)

Module Ex.
Definition unlimited : Config :=
  {| MAX_PATHS_COUNT := 0; MAX_CLIENTS_PER_PATH := 0; BLUE := "/blue" |}.
Definition two_paths : Config :=
  {| MAX_PATHS_COUNT := 2; MAX_CLIENTS_PER_PATH := 0; BLUE := "/blue" |}.
Definition one_client : Config :=
  {| MAX_PATHS_COUNT := 0; MAX_CLIENTS_PER_PATH := 1; BLUE := "/blue" |}.
Definition allow_all : MountPointsCallbacks := {| authorizeAccess := None |}.
Definition fresh : RtspMountPoints := rtsp_mount_points_new allow_all.
Definition ctx (c : GstRTSPClient) : GstRTSPContext :=
  {| client := c; token := None |}.
Definition play (path : string) : GstRTSPUrl :=
  {| abspath := path; query := None |}.
Definition record (path : string) : GstRTSPUrl :=
  {| abspath := path; query := Some "record" |}.
Definition A : GstRTSPClient := 1%N.
Definition B : GstRTSPClient := 2%N.
Definition C : GstRTSPClient := 3%N.
(** Client [A] asks for [/cam1]. *)
Definition request_again (self : RtspMountPoints) : RtspMountPoints :=
  after (make_path unlimited self (Some (ctx A)) (play "/cam1")).
(** Client [A] asks for [/cam1] and disconnects. *)
Definition visit (self : RtspMountPoints) : RtspMountPoints :=
  after (client_closed (request_again self) A).
(** A policy that lets only the role [admin] in. *)
Definition admin_only : MountPointsCallbacks :=
  {| authorizeAccess := Some (λ user _, String.eqb user "admin") |}.
Definition guarded : RtspMountPoints := rtsp_mount_points_new admin_only.
Definition with_role (c : GstRTSPClient) (role : string) : GstRTSPContext :=
  {| client := c;
     token := Some {[GST_RTSP_TOKEN_MEDIA_FACTORY_ROLE := role]} |}.
Definition without_role (c : GstRTSPClient) : GstRTSPContext :=
  {| client := c; token := Some ∅ |}.
End Ex.

(** ** Basic facts *)

Lemma string_compare_refl (s : string) : String.compare s s = Eq.
Proof.
  pose proof (String.compare_antisym s s) as E.
  destruct (String.compare s s); simpl in E; congruence.
Qed.

Lemma g_strcmp0_eq (a : option string) (s : string) :
  g_strcmp0 a (Some s) = 0 ↔ a = Some s.
Proof.
  destruct a as [t|]; simpl; [|split; discriminate].
  destruct (String.compare t s) eqn:E.
  - apply String.compare_eq_iff in E. subst. tauto.
  - split; [discriminate|]. intros [= ->].
    rewrite string_compare_refl in E. discriminate.
  - split; [discriminate|]. intros [= ->].
    rewrite string_compare_refl in E. discriminate.
Qed.

Lemma isRecord_iff (url : GstRTSPUrl) :
  isRecord url = true ↔ query url = Some "record".
Proof. unfold isRecord. rewrite Z.eqb_eq. apply g_strcmp0_eq. Qed.

Lemma uint32_t_small (z : Z) : 0 ≤ z < 2 ^ 32 → uint32_t z = z.
Proof. intros. unfold uint32_t. apply Z.mod_small. lia. Qed.


Lemma emplace_None `{Countable K} {V} (k : K) (v : V) (m : gmap K V) :
  m !! k = None → emplace k v m = <[k := v]> m.
Proof. intros E. unfold emplace. by rewrite E. Qed.

Lemma make_path_no_context cfg self url :
  make_path cfg self None url = mkRet None [Assert false] self.
Proof. reflexivity. Qed.

Lemma make_path_denied cfg self context url :
  authorize_access self context url = false →
  make_path cfg self (Some context) url = mkRet None [Assert true] self.
Proof. intros E. unfold make_path. by rewrite E. Qed.

Lemma make_path_paths_full cfg self context url :
  authorize_access self context url = true →
  paths_full cfg self (abspath url) = true →
  make_path cfg self (Some context) url =
    mkRet None
      [Assert true;
       Log debug "make_path. client: {}, path: {}"
         [ArgPtr (client context); ArgStr (abspath url)];
       Log info "Max paths count reached. client: {}, path: {}, count {}"
         [ArgPtr (client context); ArgStr (abspath url);
          ArgInt (MAX_PATHS_COUNT cfg)]]
      self.
Proof.
  intros E1 E2. unfold make_path. rewrite E1. simpl.
  unfold paths_full in E2. by rewrite E2.
Qed.

Lemma make_path_clients_full cfg self context url :
  authorize_access self context url = true →
  paths_full cfg self (abspath url) = false →
  clients_full cfg self (abspath url) = true →
  make_path cfg self (Some context) url =
    mkRet None
      [Assert true;
       Log debug "make_path. client: {}, path: {}"
         [ArgPtr (client context); ArgStr (abspath url)];
       Log info "Max clients count per path reached. client: {}, path: {}, count {}"
         [ArgPtr (client context); ArgStr (abspath url);
          ArgInt (MAX_PATHS_COUNT cfg)]]
      self.
Proof.
  intros E1 E2 E3. unfold make_path. rewrite E1. simpl.
  unfold paths_full in E2. rewrite E2.
  unfold clients_full in E3. by rewrite E3.
Qed.

Lemma make_path_admitted cfg self context url :
  authorize_access self context url = true →
  paths_full cfg self (abspath url) = false →
  clients_full cfg self (abspath url) = false →
  let r := make_path cfg self (Some context) url in
  value r = Some (if isRecord url then abspath url +:+ "?record" else abspath url) ∧
  callbacks (p (after r)) = callbacks (p self) ∧
  clientsToPaths (p (after r)) = admit_client self (client context) (abspath url) ∧
  match pathsRefs (p self) !! abspath url with
  | None =>
      pathsRefs (p (after r)) = <[abspath url := 1]> (pathsRefs (p self)) ∧
      proxy (after r) = uint64_t (proxy self + 1) ∧
      parent_instance (after r) =
        <[abspath url +:+ RecordSuffix :=
            RtspRecordMediaFactory (format_proxy (proxy self))]>
          (<[abspath url :=
               RtspPlayMediaFactory (splashSource cfg) (format_proxy (proxy self))]>
             (parent_instance self)) ∧
      channel_names (effects r) = [format_proxy (proxy self)]
  | Some refs =>
      pathsRefs (p (after r)) = <[abspath url := uint32_t (refs + 1)]> (pathsRefs (p self)) ∧
      proxy (after r) = proxy self ∧
      parent_instance (after r) = parent_instance self ∧
      channel_names (effects r) = []
  end.
Proof.
  intros E1 E2 E3. unfold make_path. rewrite E1. simpl.
  unfold paths_full in E2. rewrite E2.
  unfold clients_full in E3. rewrite E3.
  unfold admit_client.
  destruct (clientsToPaths (p self) !! client context) eqn:Ec;
    destruct (pathsRefs (p self) !! abspath url) eqn:Ep; simpl;
    rewrite ?(emplace_None _ _ _ Ec), ?(emplace_None _ _ _ Ep); done.
Qed.

Lemma make_path_rejected_cases cfg self context url :
  value (make_path cfg self context url) = None →
  context = None ∨
  ∃ ctx, context = Some ctx ∧
    (authorize_access self ctx url = false ∨
     authorize_access self ctx url = true ∧
       (paths_full cfg self (abspath url) = true ∨
        paths_full cfg self (abspath url) = false ∧
        clients_full cfg self (abspath url) = true)).
Proof.
  intros Hv. destruct context as [ctx|]; [right; exists ctx; split; [done|] | by left].
  destruct (authorize_access self ctx url) eqn:E1; [right; split; [done|] | by left].
  destruct (paths_full cfg self (abspath url)) eqn:E2; [by left | right; split; [done|]].
  destruct (clients_full cfg self (abspath url)) eqn:E3; [done|].
  destruct (make_path_admitted cfg self ctx url E1 E2 E3) as [Hs _].
  rewrite Hs in Hv. discriminate.
Qed.

Lemma make_path_outcome cfg self context url :
  (value (make_path cfg self context url) = None ∧
   after (make_path cfg self context url) = self ∧
   Forall silent (effects (make_path cfg self context url))) ∨
  (∃ ctx, context = Some ctx ∧
          authorize_access self ctx url = true ∧
          paths_full cfg self (abspath url) = false ∧
          clients_full cfg self (abspath url) = false).
Proof.
  destruct context as [ctx|]; [|left; split_and!; [done..|repeat constructor]].
  destruct (authorize_access self ctx url) eqn:E1;
    [|left; rewrite make_path_denied by done;
      split_and!; [done..|repeat constructor]].
  destruct (paths_full cfg self (abspath url)) eqn:E2;
    [left; rewrite make_path_paths_full by done;
     split_and!; [done..|repeat constructor]|].
  destruct (clients_full cfg self (abspath url)) eqn:E3;
    [left; rewrite make_path_clients_full by done;
     split_and!; [done..|repeat constructor]|].
  right. by exists ctx.
Qed.

(** ** Role marker and canonical path *)

(** C5.  A request is a publish request exactly when the query part of the
    URL is the string [record]; a successful [make_path] returns the
    absolute path followed by [?record] for a publish request and the
    absolute path itself for any other request.  The comparison is by
    equality of strings, hence case-sensitive. *)
Theorem make_path_canonical_path cfg self context url (s : string) :
  value (make_path cfg self context url) = Some s →
  (isRecord url = true ↔ query url = Some "record") ∧
  (query url = Some "record" → s = abspath url +:+ "?record") ∧
  (query url ≠ Some "record" → s = abspath url).
Proof.
  intros Hv. split; [apply isRecord_iff|].
  assert (s = if isRecord url then abspath url +:+ "?record" else abspath url) as ->.
  { destruct context as [ctx|]; [|discriminate].
    destruct (authorize_access self ctx url) eqn:E1;
      [|rewrite make_path_denied in Hv; done].
    destruct (paths_full cfg self (abspath url)) eqn:E2;
      [rewrite make_path_paths_full in Hv; done|].
    destruct (clients_full cfg self (abspath url)) eqn:E3;
      [rewrite make_path_clients_full in Hv; done|].
    destruct (make_path_admitted cfg self ctx url E1 E2 E3) as [Hs _].
    rewrite Hs in Hv. congruence. }
  split; intros Hq.
  - by rewrite (proj2 (isRecord_iff url) Hq).
  - destruct (isRecord url) eqn:E; [|done].
    by apply isRecord_iff in E.
Qed.

Lemma make_path_canonical_path_witness :
  value (make_path Ex.unlimited Ex.fresh (Some (Ex.ctx Ex.A)) (Ex.record "/cam1"))
    = Some "/cam1?record" ∧
  (isRecord (Ex.record "/cam1") = true ↔ query (Ex.record "/cam1") = Some "record") ∧
  (query (Ex.record "/cam1") = Some "record" →
     "/cam1?record" = abspath (Ex.record "/cam1") +:+ "?record") ∧
  (query (Ex.record "/cam1") ≠ Some "record" →
     "/cam1?record" = abspath (Ex.record "/cam1")).
Proof.
  split; [reflexivity|].
  apply (make_path_canonical_path
           Ex.unlimited Ex.fresh (Some (Ex.ctx Ex.A)) (Ex.record "/cam1")).
  reflexivity.
Defined.

(** The marker is compared as it is: [Record] is not [record], and a URL
    without query is a subscribe request. *)
Example uppercase_query_is_subscribe :
  value (make_path Ex.unlimited Ex.fresh (Some (Ex.ctx Ex.A))
           {| abspath := "/cam1"; query := Some "Record" |}) = Some "/cam1".
Proof. reflexivity. Qed.

Example no_query_is_subscribe :
  value (make_path Ex.unlimited Ex.fresh (Some (Ex.ctx Ex.A)) (Ex.play "/cam1"))
    = Some "/cam1".
Proof. reflexivity. Qed.

(** ** Rejections *)

(** C10.  A call of [make_path] that returns [NULL] leaves the object as it
    was (mount table, channel counter, path table, client table) and has no
    effect besides logging and checked assertions: it connects no signal and
    builds no factory. *)
Theorem make_path_rejection_changes_nothing cfg self context url :
  value (make_path cfg self context url) = None →
  after (make_path cfg self context url) = self ∧
  Forall silent (effects (make_path cfg self context url)).
Proof.
  intros Hv.
  destruct (make_path_rejected_cases _ _ _ _ Hv)
    as [-> | (ctx & -> & [E1 | (E1 & [E2 | (E2 & E3)])])].
  - split; [done|]. repeat constructor.
  - rewrite make_path_denied by done. split; [done|]. repeat constructor.
  - rewrite make_path_paths_full by done. split; [done|]. repeat constructor.
  - rewrite make_path_clients_full by done. split; [done|]. repeat constructor.
Qed.

Lemma make_path_rejection_changes_nothing_witness :
  let self := after (make_path Ex.one_client Ex.fresh (Some (Ex.ctx Ex.A)) (Ex.play "/cam1")) in
  value (make_path Ex.one_client self (Some (Ex.ctx Ex.B)) (Ex.play "/cam1")) = None ∧
  after (make_path Ex.one_client self (Some (Ex.ctx Ex.B)) (Ex.play "/cam1")) = self ∧
  Forall silent
    (effects (make_path Ex.one_client self (Some (Ex.ctx Ex.B)) (Ex.play "/cam1"))).
Proof.
  intros self. split; [reflexivity|].
  apply (make_path_rejection_changes_nothing
           Ex.one_client self (Some (Ex.ctx Ex.B)) (Ex.play "/cam1")).
  reflexivity.
Defined.

(** C3, as the code has it.  [make_path] rejects a request for the
    per-path limit exactly when the access is authorized, a limit [L > 0] is
    configured, the path has an entry and its count has reached [L] --
    whether or not the requesting client already holds the path.  Such a
    rejection leaves the object, and with it every holder's reference,
    unchanged. *)
Theorem per_path_rejection_iff cfg self context url :
  (rejected_per_path (make_path cfg self context url) ↔
   ∃ ctx refs,
     context = Some ctx ∧
     authorize_access self ctx url = true ∧
     0 < MAX_CLIENTS_PER_PATH cfg ∧
     pathsRefs (p self) !! abspath url = Some refs ∧
     MAX_CLIENTS_PER_PATH cfg ≤ refs) ∧
  (rejected_per_path (make_path cfg self context url) →
   after (make_path cfg self context url) = self).
Proof.
  split.
  - split.
    + intros [Hv [args Hin]].
      destruct (make_path_rejected_cases _ _ _ _ Hv)
        as [-> | (ctx & -> & [E1 | (E1 & [E2 | (E2 & E3)])])].
      * absent_effect Hin.
      * rewrite make_path_denied in Hin by done. absent_effect Hin.
      * rewrite make_path_paths_full in Hin by done. absent_effect Hin.
      * unfold clients_full in E3.
        apply andb_true_iff in E3 as [HL Hr].
        destruct (pathsRefs (p self) !! abspath url) as [refs|] eqn:Ep; [|done].
        exists ctx, refs. repeat split; [done|lia|lia].
    + intros (ctx & refs & -> & E1 & HL & Ep & Hr).
      assert (paths_full cfg self (abspath url) = false) as E2.
      { unfold paths_full. rewrite Ep.
        rewrite bool_decide_eq_false_2 by done. by rewrite andb_false_r. }
      assert (clients_full cfg self (abspath url) = true) as E3.
      { unfold clients_full. rewrite Ep. apply andb_true_iff. split; lia. }
      rewrite make_path_clients_full by done.
      split; [done|]. eexists. present_effect.
  - intros [Hv _].
    destruct (make_path_rejected_cases _ _ _ _ Hv)
      as [-> | (ctx & -> & [E1 | (E1 & [E2 | (E2 & E3)])])]; [done|..].
    + by rewrite make_path_denied.
    + by rewrite make_path_paths_full.
    + by rewrite make_path_clients_full.
Qed.

Lemma per_path_rejection_iff_witness :
  let self := after (make_path Ex.one_client Ex.fresh (Some (Ex.ctx Ex.A)) (Ex.play "/cam1")) in
  rejected_per_path (make_path Ex.one_client self (Some (Ex.ctx Ex.B)) (Ex.play "/cam1")) ∧
  after (make_path Ex.one_client self (Some (Ex.ctx Ex.B)) (Ex.play "/cam1")) = self ∧
  holds self Ex.A "/cam1" = true.
Proof.
  intros self.
  destruct (per_path_rejection_iff Ex.one_client self (Some (Ex.ctx Ex.B))
              (Ex.play "/cam1")) as [[_ Hrej] Hsame].
  assert (rejected_per_path
            (make_path Ex.one_client self (Some (Ex.ctx Ex.B)) (Ex.play "/cam1")))
    as H.
  { apply Hrej. exists (Ex.ctx Ex.B), 1.
    split; [reflexivity|]. split; [reflexivity|]. split; [reflexivity|].
    split; [reflexivity|]. vm_compute. discriminate. }
  split; [exact H|]. split; [exact (Hsame H) | reflexivity].
Defined.

(** C3, counterexample to the specified condition: with a limit of one
    client per path, the only holder of a path that asks for it again is
    rejected by the per-path check. *)
Lemma per_path_rejects_holder :
  let self := after (make_path Ex.one_client Ex.fresh (Some (Ex.ctx Ex.A)) (Ex.play "/cam1")) in
  ¬ (rejected_per_path (make_path Ex.one_client self (Some (Ex.ctx Ex.A)) (Ex.play "/cam1")) ↔
     in_table self "/cam1" ∧
     refcount self "/cam1" = MAX_CLIENTS_PER_PATH Ex.one_client ∧
     holds self Ex.A "/cam1" = false).
Proof.
  intros self [Hrej _].
  assert (holds self Ex.A "/cam1" = true) as Hh by reflexivity.
  destruct Hrej as (_ & _ & Hn); [|congruence].
  split; [reflexivity|].
  eexists. vm_compute. present_effect.
Qed.

(** C6.  With a limit [P > 0] on the number of paths and an authorized
    access: a request for a path without entry is rejected for the path
    limit as soon as the table holds [P] or more paths, and changes nothing;
    a request for a path that has an entry is never rejected for the path
    limit, and succeeds unless the per-path limit stops it. *)
Theorem paths_limit cfg self context url :
  0 < MAX_PATHS_COUNT cfg →
  authorize_access self context url = true →
  (pathsRefs (p self) !! abspath url = None →
   MAX_PATHS_COUNT cfg ≤ Z.of_nat (size (pathsRefs (p self))) →
   rejected_paths (make_path cfg self (Some context) url) ∧
   after (make_path cfg self (Some context) url) = self) ∧
  (∀ refs,
     pathsRefs (p self) !! abspath url = Some refs →
     ¬ rejected_paths (make_path cfg self (Some context) url) ∧
     (MAX_CLIENTS_PER_PATH cfg ≤ 0 ∨ refs < MAX_CLIENTS_PER_PATH cfg →
      value (make_path cfg self (Some context) url) =
        Some (if isRecord url then abspath url +:+ "?record" else abspath url))).
Proof.
  intros HP E1. split.
  - intros Ep Hsize.
    assert (paths_full cfg self (abspath url) = true) as E2.
    { unfold paths_full. rewrite Ep. rewrite bool_decide_eq_true_2 by done.
      rewrite !andb_true_iff. repeat split; lia. }
    rewrite make_path_paths_full by done.
    split; [|done]. split; [done|]. eexists. present_effect.
  - intros refs Ep.
    assert (paths_full cfg self (abspath url) = false) as E2.
    { unfold paths_full. rewrite Ep.
      rewrite bool_decide_eq_false_2 by done. by rewrite andb_false_r. }
    split.
    + intros [Hv [args Hin]].
      destruct (clients_full cfg self (abspath url)) eqn:E3.
      * rewrite make_path_clients_full in Hin by done. absent_effect Hin.
      * destruct (make_path_admitted cfg self context url E1 E2 E3) as [Hs _].
        rewrite Hs in Hv. discriminate.
    + intros HL.
      assert (clients_full cfg self (abspath url) = false) as E3.
      { unfold clients_full. rewrite Ep. apply andb_false_iff. lia. }
      by destruct (make_path_admitted cfg self context url E1 E2 E3) as [Hs _].
Qed.

Lemma paths_limit_witness :
  let self :=
    after (make_path Ex.two_paths
             (after (make_path Ex.two_paths Ex.fresh (Some (Ex.ctx Ex.A)) (Ex.play "/cam1")))
             (Some (Ex.ctx Ex.A)) (Ex.play "/cam2")) in
  rejected_paths (make_path Ex.two_paths self (Some (Ex.ctx Ex.B)) (Ex.play "/cam3")) ∧
  value (make_path Ex.two_paths self (Some (Ex.ctx Ex.B)) (Ex.play "/cam1")) = Some "/cam1" ∧
  value (make_path Ex.two_paths self (Some (Ex.ctx Ex.B)) (Ex.record "/cam2")) = Some "/cam2?record".
Proof.
  intros self.
  assert (0 < MAX_PATHS_COUNT Ex.two_paths) as HP by reflexivity.
  split; [|split].
  - apply (paths_limit Ex.two_paths self (Ex.ctx Ex.B) (Ex.play "/cam3") HP eq_refl).
    + reflexivity.
    + vm_compute. discriminate.
  - apply (proj2 (paths_limit Ex.two_paths self (Ex.ctx Ex.B) (Ex.play "/cam1") HP eq_refl) 1).
    + reflexivity.
    + left. vm_compute. discriminate.
  - apply (proj2 (paths_limit Ex.two_paths self (Ex.ctx Ex.B) (Ex.record "/cam2") HP eq_refl) 1).
    + reflexivity.
    + left. vm_compute. discriminate.
Defined.

(** ** The loop of [client_closed] *)

Lemma client_closed_path_after c es self x :
  let self' := (client_closed_path c (es, self) x).2 in
  callbacks (p self') = callbacks (p self) ∧
  clientsToPaths (p self') = clientsToPaths (p self) ∧
  proxy self' = proxy self ∧
  (∀ path, pathsRefs (p self') !! path =
           if decide (path = x) then dec_ref (pathsRefs (p self) !! x)
           else pathsRefs (p self) !! path) ∧
  parent_instance self' =
    (if released self x
     then delete (x +:+ RecordSuffix) (delete x (parent_instance self))
     else parent_instance self).
Proof.
  unfold client_closed_path, released, dec_ref.
  destruct (pathsRefs (p self) !! x) as [refs|] eqn:Ex; simpl.
  - destruct (uint32_t (refs - 1) =? 0) eqn:E0; simpl;
      (split_and!; [done..| |done]); intros path; case_decide; subst.
    + apply lookup_delete_eq.
    + by rewrite lookup_delete_ne.
    + apply lookup_insert_eq.
    + by rewrite lookup_insert_ne.
  - split_and!; [done..| |done]. intros path. case_decide; by subst.
Qed.

Lemma client_closed_path_silent c es self x :
  Forall silent es → Forall silent (client_closed_path c (es, self) x).1.
Proof.
  intros Hes. unfold client_closed_path.
  destruct (pathsRefs (p self) !! x) as [refs|]; simpl;
    [destruct (uint32_t (refs - 1) =? 0); simpl|];
    (apply Forall_app; split; [done | by repeat constructor]).
Qed.

Lemma client_closed_loop c l : ∀ es self,
  NoDup l →
  let self' := (foldl (client_closed_path c) (es, self) l).2 in
  callbacks (p self') = callbacks (p self) ∧
  clientsToPaths (p self') = clientsToPaths (p self) ∧
  proxy self' = proxy self ∧
  (∀ path, pathsRefs (p self') !! path =
           if decide (path ∈ l) then dec_ref (pathsRefs (p self) !! path)
           else pathsRefs (p self) !! path) ∧
  (∀ k, parent_instance self !! k = None → parent_instance self' !! k = None) ∧
  (∀ path, path ∈ l → released self path = true →
           parent_instance self' !! path = None ∧
           parent_instance self' !! (path +:+ RecordSuffix) = None) ∧
  (∀ k, (∀ path, path ∈ l → released self path = true →
                 k ≠ path ∧ k ≠ path +:+ RecordSuffix) →
        parent_instance self' !! k = parent_instance self !! k).
Proof.
  induction l as [|x l IH]; intros es self Hnd; cbn [foldl].
  { simpl. split_and!; try done.
    intros path Hin. by apply elem_of_nil in Hin. }
  apply NoDup_cons in Hnd as [Hx Hnd].
  destruct (client_closed_path c (es, self) x) as [es1 self1] eqn:E1.
  pose proof (client_closed_path_after c es self x) as Hstep.
  rewrite E1 in Hstep. simpl in Hstep.
  destruct Hstep as (Hcb & Hcl & Hpx & Hrefs & Hmnt).
  destruct (IH es1 self1 Hnd) as (Icb & Icl & Ipx & Irefs & Imono & Irel & Ikeep).
  assert (∀ path, path ≠ x → released self1 path = released self path) as Hsame.
  { intros path Hne. unfold released. rewrite Hrefs. by rewrite decide_False. }
  assert (∀ k, parent_instance self !! k = None → parent_instance self1 !! k = None)
    as Hmono1.
  { intros k Hk. rewrite Hmnt. destruct (released self x); [|done].
    rewrite !lookup_delete. repeat case_decide; done. }
  split_and!.
  - congruence.
  - congruence.
  - congruence.
  - intros path. rewrite Irefs, !Hrefs.
    destruct (decide (path = x)) as [->|Hne].
    + rewrite (decide_False (P := x ∈ l)) by done.
      rewrite (decide_True (P := x ∈ x :: l)) by (apply elem_of_cons; auto). done.
    + destruct (decide (path ∈ l)) as [Hin|Hin].
      * rewrite decide_True by (apply elem_of_cons; auto). done.
      * rewrite decide_False; [done|].
        intros [?|?]%elem_of_cons; done.
  - intros k Hk. by apply Imono, Hmono1.
  - intros path Hin Hr. apply elem_of_cons in Hin as [->|Hin].
    + split; apply Imono; rewrite Hmnt, Hr.
      * rewrite lookup_delete. case_decide; [done|]. apply lookup_delete_eq.
      * apply lookup_delete_eq.
    + apply Irel; [done|]. rewrite Hsame; [done|]. intros ->. done.
  - intros k Hk. rewrite Ikeep.
    + rewrite Hmnt. destruct (released self x) eqn:Er; [|done].
      destruct (Hk x) as [? ?]; [apply elem_of_cons; auto | done |].
      by rewrite !lookup_delete_ne.
    + intros path Hin Hr. apply Hk; [apply elem_of_cons; auto|].
      rewrite <- Hsame; [done|]. intros ->. done.
Qed.

Lemma client_closed_loop_silent c l : ∀ es self,
  Forall silent es → Forall silent (foldl (client_closed_path c) (es, self) l).1.
Proof.
  induction l as [|x l IH]; intros es self Hes; cbn [foldl]; [done|].
  destruct (client_closed_path c (es, self) x) as [es1 self1] eqn:E1.
  apply IH. pose proof (client_closed_path_silent c es self x Hes) as H.
  by rewrite E1 in H.
Qed.

Lemma set_order_NoDup (paths : gset string) : NoDup (set_order paths).
Proof.
  unfold set_order. rewrite merge_sort_Permutation. apply NoDup_elements.
Qed.

Lemma elem_of_set_order (paths : gset string) (path : string) :
  path ∈ set_order paths ↔ path ∈ paths.
Proof.
  unfold set_order. rewrite merge_sort_Permutation. apply elem_of_elements.
Qed.

Lemma client_closed_untracked self c :
  clientsToPaths (p self) !! c = None →
  client_closed self c =
    mkRet tt [Log debug "Client didn't use any path. client: {}" [ArgPtr c]] self.
Proof. intros E. unfold client_closed. by rewrite E. Qed.

Lemma client_closed_tracked self c held :
  clientsToPaths (p self) !! c = Some held →
  let self' := after (client_closed self c) in
  callbacks (p self') = callbacks (p self) ∧
  clientsToPaths (p self') = delete c (clientsToPaths (p self)) ∧
  proxy self' = proxy self ∧
  (∀ path, pathsRefs (p self') !! path =
           if decide (path ∈ held) then dec_ref (pathsRefs (p self) !! path)
           else pathsRefs (p self) !! path) ∧
  (∀ k, parent_instance self !! k = None → parent_instance self' !! k = None) ∧
  (∀ path, path ∈ held → released self path = true →
           parent_instance self' !! path = None ∧
           parent_instance self' !! (path +:+ RecordSuffix) = None) ∧
  (∀ k, (∀ path, path ∈ held → released self path = true →
                 k ≠ path ∧ k ≠ path +:+ RecordSuffix) →
        parent_instance self' !! k = parent_instance self !! k) ∧
  Forall silent (effects (client_closed self c)).
Proof.
  intros E. unfold client_closed. rewrite E.
  pose proof (client_closed_loop c (set_order held) [] self (set_order_NoDup held))
    as Hloop.
  pose proof (client_closed_loop_silent c (set_order held) [] self (Forall_nil_2 _))
    as Hsil.
  destruct (foldl (client_closed_path c) ([], self) (set_order held))
    as [es self1] eqn:Ef.
  simpl in Hloop, Hsil. simpl.
  destruct Hloop as (Hcb & Hcl & Hpx & Hrefs & Hmono & Hrel & Hkeep).
  split_and!; try done.
  - by rewrite Hcl.
  - intros path. rewrite Hrefs.
    destruct (decide (path ∈ held)) as [Hin|Hin].
    + by rewrite decide_True by by apply elem_of_set_order.
    + by rewrite decide_False by by rewrite elem_of_set_order.
  - intros path Hin. apply Hrel. by apply elem_of_set_order.
  - intros k Hk. apply Hkeep. intros path Hin. apply Hk.
    by apply elem_of_set_order.
Qed.

(** ** Disconnects *)

(** C7.  [client_closed] for a client without entry in the client table
    changes nothing and only logs.  For a client with entry [held]: the
    count of every path in [held] that has an entry goes down by one (in
    [uint32_t]; by exactly one when the count was at least 1), and the entry
    is erased when the result is 0, in which case nothing is mounted any more
    at the path and at the path followed by [?record]; the entries of paths
    outside [held] are as before; mounts other than those of erased paths are
    as before; the client's entry is removed from the client table; the
    channel counter and callbacks are untouched; the call only logs. *)
Theorem client_closed_spec self c :
  (clientsToPaths (p self) !! c = None →
   after (client_closed self c) = self ∧
   Forall silent (effects (client_closed self c))) ∧
  (∀ held, clientsToPaths (p self) !! c = Some held →
   let self' := after (client_closed self c) in
   (∀ path refs,
      path ∈ held → pathsRefs (p self) !! path = Some refs →
      (0 < refs < 2 ^ 32 → uint32_t (refs - 1) = refs - 1) ∧
      (uint32_t (refs - 1) ≠ 0 →
       pathsRefs (p self') !! path = Some (uint32_t (refs - 1))) ∧
      (uint32_t (refs - 1) = 0 →
       pathsRefs (p self') !! path = None ∧
       parent_instance self' !! path = None ∧
       parent_instance self' !! (path +:+ "?record") = None)) ∧
   (∀ path, path ∈ held → pathsRefs (p self) !! path = None →
            pathsRefs (p self') !! path = None) ∧
   (∀ path, path ∉ held →
            pathsRefs (p self') !! path = pathsRefs (p self) !! path) ∧
   (∀ k, (∀ path, path ∈ held → released self path = true →
                  k ≠ path ∧ k ≠ path +:+ "?record") →
         parent_instance self' !! k = parent_instance self !! k) ∧
   clientsToPaths (p self') = delete c (clientsToPaths (p self)) ∧
   proxy self' = proxy self ∧
   callbacks (p self') = callbacks (p self) ∧
   Forall silent (effects (client_closed self c))).
Proof.
  split.
  - intros E. rewrite client_closed_untracked by done. simpl.
    split; [done|]. repeat constructor.
  - intros held E self'.
    destruct (client_closed_tracked self c held E)
      as (Hcb & Hcl & Hpx & Hrefs & Hmono & Hrel & Hkeep & Hsil).
    fold self' in Hcb, Hcl, Hpx, Hrefs, Hmono, Hrel, Hkeep.
    split_and!; try done.
    + intros path refs Hin Ep. split_and!.
      * intros Hr. apply uint32_t_small. lia.
      * intros Hne. rewrite Hrefs, decide_True, Ep by done. simpl.
        apply Z.eqb_neq in Hne. by rewrite Hne.
      * intros H0. split.
        { rewrite Hrefs, decide_True, Ep by done. simpl.
          apply Z.eqb_eq in H0. by rewrite H0. }
        apply Hrel; [done|]. unfold released. rewrite Ep. by apply Z.eqb_eq.
    + intros path Hin Ep. by rewrite Hrefs, decide_True, Ep.
    + intros path Hin. by rewrite Hrefs, decide_False.
Qed.

Lemma client_closed_spec_witness :
  let s1 := after (make_path Ex.unlimited Ex.fresh (Some (Ex.ctx Ex.A)) (Ex.play "/cam1")) in
  let s2 := after (make_path Ex.unlimited s1 (Some (Ex.ctx Ex.B)) (Ex.record "/cam1")) in
  let s3 := after (client_closed s2 Ex.A) in
  let s4 := after (client_closed s3 Ex.B) in
  pathsRefs (p s2) !! "/cam1" = Some 2 ∧
  pathsRefs (p s3) !! "/cam1" = Some 1 ∧
  (pathsRefs (p s4) !! "/cam1" = None ∧
   parent_instance s4 !! "/cam1" = None ∧
   parent_instance s4 !! "/cam1?record" = None) ∧
  after (client_closed s4 Ex.C) = s4.
Proof.
  intros s1 s2 s3 s4. split; [|split; [|split]].
  - reflexivity.
  - destruct (proj2 (client_closed_spec s2 Ex.A) {["/cam1"]} eq_refl) as [H _].
    destruct (H "/cam1" 2) as (_ & H2 & _);
      [by apply elem_of_singleton | reflexivity |].
    apply H2. vm_compute. discriminate.
  - destruct (proj2 (client_closed_spec s3 Ex.B) {["/cam1"]} eq_refl) as [H _].
    destruct (H "/cam1" 1) as (_ & _ & H0);
      [by apply elem_of_singleton | reflexivity |].
    apply H0. reflexivity.
  - apply (proj1 (client_closed_spec s4 Ex.C)). reflexivity.
Defined.

(** ** Repeated requests of one client *)

(** The count of a path that has an entry goes up on every admitted request,
    whatever the requesting client already holds: the result of the
    insertion into the client's set ([addPathRef]) is not consulted. *)
Lemma make_path_increments_regardless cfg self context url refs :
  authorize_access self context url = true →
  clients_full cfg self (abspath url) = false →
  pathsRefs (p self) !! abspath url = Some refs →
  pathsRefs (p (after (make_path cfg self (Some context) url))) !! abspath url
    = Some (uint32_t (refs + 1)).
Proof.
  intros E1 E3 Ep.
  assert (paths_full cfg self (abspath url) = false) as E2.
  { unfold paths_full. rewrite Ep.
    rewrite bool_decide_eq_false_2 by done. by rewrite andb_false_r. }
  destruct (make_path_admitted cfg self context url E1 E2 E3) as (_ & _ & _ & H).
  rewrite Ep in H. destruct H as (-> & _). apply lookup_insert_eq.
Qed.

(** C1, the code at the failing input: client [A] asks for [/cam1] twice.
    Both requests succeed; after the first, [A] holds the path and the count
    is 1; the second changes the path table and leaves the count at 2. *)
Theorem repeat_request_increments_refcount :
  let r1 := make_path Ex.unlimited Ex.fresh (Some (Ex.ctx Ex.A)) (Ex.play "/cam1") in
  let r2 := make_path Ex.unlimited (after r1) (Some (Ex.ctx Ex.A)) (Ex.play "/cam1") in
  value r1 = Some "/cam1" ∧
  holds (after r1) Ex.A "/cam1" = true ∧
  refcount (after r1) "/cam1" = 1 ∧
  value r2 = Some "/cam1" ∧
  refcount (after r2) "/cam1" = 2 ∧
  pathsRefs (p (after r2)) ≠ pathsRefs (p (after r1)).
Proof.
  intros r1 r2. split_and!; try reflexivity.
  intros H.
  assert (pathsRefs (p (after r2)) !! "/cam1" = pathsRefs (p (after r1)) !! "/cam1") as E
    by (by rewrite H).
  vm_compute in E. discriminate.
Qed.

(** C2, the code at the failing input: after client [A] has asked for
    [/cam1] twice the count is 2 while one client holds the path; after [A]
    has disconnected no client holds the path, yet its entry stays, with
    count 1, and its endpoints stay mounted. *)
Theorem refcount_exceeds_holders :
  let s1 := after (make_path Ex.unlimited Ex.fresh (Some (Ex.ctx Ex.A)) (Ex.play "/cam1")) in
  let s2 := after (make_path Ex.unlimited s1 (Some (Ex.ctx Ex.A)) (Ex.play "/cam1")) in
  let s3 := after (client_closed s2 Ex.A) in
  (refcount s2 "/cam1" = 2 ∧ holders s2 "/cam1" = 1) ∧
  (pathsRefs (p s3) !! "/cam1" = Some 1 ∧ holders s3 "/cam1" = 0 ∧
   clientsToPaths (p s3) = ∅ ∧
   is_Some (parent_instance s3 !! "/cam1") ∧
   is_Some (parent_instance s3 !! "/cam1?record")).
Proof.
  intros s1 s2 s3. split_and!; try reflexivity.
  - vm_compute. eauto.
  - vm_compute. eauto.
Qed.

(** ** Presence in the table and positive counts *)

Lemma make_path_pathsRefs cfg self context url :
  pathsRefs (p (after (make_path cfg self context url))) = pathsRefs (p self) ∨
  pathsRefs (p (after (make_path cfg self context url))) =
    <[abspath url := match pathsRefs (p self) !! abspath url with
                     | None => 1
                     | Some refs => uint32_t (refs + 1)
                     end]> (pathsRefs (p self)).
Proof.
  destruct context as [ctx|]; [|by left].
  destruct (authorize_access self ctx url) eqn:E1;
    [|rewrite make_path_denied by done; by left].
  destruct (paths_full cfg self (abspath url)) eqn:E2;
    [rewrite make_path_paths_full by done; by left|].
  destruct (clients_full cfg self (abspath url)) eqn:E3;
    [rewrite make_path_clients_full by done; by left|].
  right.
  destruct (make_path_admitted cfg self ctx url E1 E2 E3) as (_ & _ & _ & H).
  destruct (pathsRefs (p self) !! abspath url); by destruct H as (-> & _).
Qed.

Lemma table_positive_iff self :
  table_positive self → ∀ path, in_table self path ↔ 0 < refcount self path.
Proof.
  intros Hpos path. unfold in_table, refcount. split.
  - intros [refs E]. rewrite E. simpl. by apply (Hpos path).
  - destruct (pathsRefs (p self) !! path); simpl; [eauto | lia].
Qed.

Lemma table_positive_new cb : table_positive (rtsp_mount_points_new cb).
Proof. intros path refs. simpl. by rewrite lookup_empty. Qed.

Lemma dec_ref_Some (refs refs' : Z) :
  0 < refs < 2 ^ 32 → dec_ref (Some refs) = Some refs' →
  refs' = refs - 1 ∧ 0 < refs' < 2 ^ 32.
Proof.
  intros Hr. unfold dec_ref. rewrite uint32_t_small by lia.
  destruct (refs - 1 =? 0) eqn:E; [done|].
  intros [= <-]. lia.
Qed.

Lemma dec_ref_None (refs : Z) :
  0 < refs < 2 ^ 32 → dec_ref (Some refs) = None → refs = 1.
Proof.
  intros Hr. unfold dec_ref. rewrite uint32_t_small by lia.
  destruct (refs - 1 =? 0) eqn:E; [lia|done].
Qed.

Lemma dec_ref_one : dec_ref (Some 1) = None.
Proof. reflexivity. Qed.

Lemma step_table_positive cfg self call :
  table_positive self →
  no_wrap cfg self call →
  let self' := (step cfg self call).2 in
  table_positive self' ∧
  (∀ path, ¬ in_table self path →
     (in_table self' path ↔
      ∃ context url, call = CallMakePath context url ∧ abspath url = path ∧
                     is_Some (value (make_path cfg self context url))) ∧
     (in_table self' path → refcount self' path = 1)) ∧
  (∀ path, in_table self path →
     (¬ in_table self' path ↔
      ∃ c held, call = CallClientClosed c ∧
                clientsToPaths (p self) !! c = Some held ∧ path ∈ held ∧
                refcount self path = 1)).
Proof.
  intros Hpos Hnw self'.
  subst self'. unfold in_table, refcount, table_positive in *.
  destruct call as [context url | c]; cbn [step snd].
  - destruct (make_path_outcome cfg self context url)
      as [(Hn & Hsame & _) | (ctx & -> & E1 & E2 & E3)].
    { rewrite Hsame. split_and!; [done| |].
      - intros path Hno. split; [|tauto]. split; [tauto|].
        intros (context' & url' & [= <- <-] & _ & [? Hs]). congruence.
      - intros path Hin. split; [tauto|].
        intros (? & ? & ? & _). discriminate. }
    destruct (make_path_admitted cfg self ctx url E1 E2 E3) as (Hv & _ & _ & H).
    assert (pathsRefs (p (after (make_path cfg self (Some ctx) url))) =
            <[abspath url := match pathsRefs (p self) !! abspath url with
                             | None => 1
                             | Some refs => uint32_t (refs + 1)
                             end]> (pathsRefs (p self))) as ->.
    { destruct (pathsRefs (p self) !! abspath url); by destruct H as (-> & _). }
    split_and!.
    + intros path refs. rewrite lookup_insert. case_decide; [|apply Hpos].
      destruct (pathsRefs (p self) !! abspath url) as [r|] eqn:Ep.
      * intros [= <-]. specialize (Hpos _ _ Ep).
        assert (r < 2 ^ 32 - 1) by (apply Hnw; [by rewrite Hv | done]).
        rewrite uint32_t_small; lia.
      * intros [= <-]. lia.
    + intros path Hno. rewrite lookup_insert.
      destruct (decide (abspath url = path)) as [<-|Hne].
      * split.
        -- split; [|eauto]. intros _. exists (Some ctx), url.
           split_and!; [done..|]. rewrite Hv. eauto.
        -- intros _.
           destruct (pathsRefs (p self) !! abspath url) eqn:Ep; [|done].
           exfalso. apply Hno. eauto.
      * split; [|tauto]. split; [tauto|].
        intros (context' & url' & [= <- <-] & ? & _). done.
    + intros path Hin. split.
      * intros Hno. exfalso. apply Hno.
        rewrite lookup_insert. case_decide; eauto.
      * intros (? & ? & ? & _). discriminate.
  - destruct (clientsToPaths (p self) !! c) as [held|] eqn:Ec.
    2:{ rewrite client_closed_untracked by done. cbn [after].
        split_and!; [done| |].
        - intros path Hno. split; [|tauto]. split; [tauto|].
          intros (? & ? & ? & _). discriminate.
        - intros path Hin. split; [tauto|].
          intros (c' & held' & [= <-] & Hc & _). congruence. }
    destruct (client_closed_tracked self c held Ec) as (_ & _ & _ & Hrefs & _).
    split_and!.
    + intros path refs. rewrite Hrefs. case_decide; [|apply Hpos].
      destruct (pathsRefs (p self) !! path) as [r|] eqn:Ep; [|done].
      intros Hd. by apply (dec_ref_Some r refs (Hpos _ _ Ep)) in Hd as [_ ?].
    + intros path Hno. rewrite Hrefs.
      assert (pathsRefs (p self) !! path = None) as ->.
      { destruct (pathsRefs (p self) !! path); [exfalso; apply Hno; eauto|done]. }
      assert (¬ is_Some (if decide (path ∈ held) then dec_ref None else None))
        as Hnone by (case_decide; simpl; by intros [? ?]).
      split; [|tauto]. split; [tauto|].
      intros (? & ? & ? & _). discriminate.
    + intros path [r Ep]. rewrite Hrefs, Ep. cbn [from_option id].
      pose proof (Hpos _ _ Ep) as Hr. split.
      * intros Hno. exists c, held.
        destruct (decide (path ∈ held)) as [Hin|Hin];
          [|exfalso; apply Hno; eauto].
        destruct (dec_ref (Some r)) eqn:Ed; [exfalso; apply Hno; eauto|].
        apply (dec_ref_None r Hr) in Ed. done.
      * intros (c' & held' & [= <-] & Hc & Hin & ->).
        rewrite Ec in Hc. injection Hc as <-.
        rewrite decide_True, dec_ref_one by done. by intros [? ?].
Qed.

Lemma run_cons_after cfg self call calls :
  (run cfg self (call :: calls)).2 = (run cfg (step cfg self call).2 calls).2.
Proof.
  cbn [run]. destruct (step cfg self call) as [es self1]. cbn [snd].
  by destruct (run cfg self1 calls).
Qed.

Lemma run_table_positive cfg calls : ∀ self,
  table_positive self → no_wrap_run cfg self calls →
  table_positive (run cfg self calls).2.
Proof.
  induction calls as [|call calls IH]; intros self Hpos Hnw; [done|].
  destruct Hnw as [Hnw1 Hnw]. rewrite run_cons_after. apply IH; [|done].
  by destruct (step_table_positive cfg self call Hpos Hnw1) as [? _].
Qed.

(** C4, as the code has it.  Take a registry reached from its creation by
    calls none of which increments a count equal to the largest [uint32_t],
    and make one more such call.  Afterwards a path has an entry exactly
    when its count is positive.  A path without entry gets one exactly when
    the call is an admitted request for that path, and the new entry has
    count 1.  A path with entry loses it exactly when the call is the
    disconnect of a client that holds the path and the count was 1, that
    is, when the decrement brings the count to 0. *)
Theorem present_iff_positive cfg cb calls call :
  no_wrap_run cfg (rtsp_mount_points_new cb) calls →
  no_wrap cfg (run cfg (rtsp_mount_points_new cb) calls).2 call →
  let self := (run cfg (rtsp_mount_points_new cb) calls).2 in
  let self' := (step cfg self call).2 in
  (∀ path, in_table self' path ↔ 0 < refcount self' path) ∧
  (∀ path, ¬ in_table self path →
     (in_table self' path ↔
      ∃ context url, call = CallMakePath context url ∧ abspath url = path ∧
                     is_Some (value (make_path cfg self context url))) ∧
     (in_table self' path → refcount self' path = 1)) ∧
  (∀ path, in_table self path →
     (¬ in_table self' path ↔
      ∃ c held, call = CallClientClosed c ∧
                clientsToPaths (p self) !! c = Some held ∧ path ∈ held ∧
                refcount self path = 1)).
Proof.
  intros Hrun Hnw self self'.
  assert (table_positive self) as Hpos
    by (apply run_table_positive; [apply table_positive_new | done]).
  destruct (step_table_positive cfg self call Hpos Hnw) as (H1 & H2 & H3).
  split_and!; [by apply table_positive_iff | done | done].
Qed.

Lemma present_iff_positive_witness :
  let calls :=
    [CallMakePath (Some (Ex.ctx Ex.A)) (Ex.play "/cam1");
     CallMakePath (Some (Ex.ctx Ex.B)) (Ex.record "/cam1");
     CallClientClosed Ex.A] in
  let self := (run Ex.unlimited Ex.fresh calls).2 in
  let self' := (step Ex.unlimited self (CallClientClosed Ex.B)).2 in
  no_wrap_run Ex.unlimited Ex.fresh calls ∧
  no_wrap Ex.unlimited self (CallClientClosed Ex.B) ∧
  (∀ path, in_table self' path ↔ 0 < refcount self' path) ∧
  in_table self "/cam1" ∧
  ¬ in_table self' "/cam1".
Proof.
  intros calls self self'.
  assert (no_wrap_run Ex.unlimited Ex.fresh calls) as Hrun.
  { split; [|split; [|split]]; try exact I.
    - intros refs _ H. vm_compute in H. discriminate.
    - intros refs _ H. vm_compute in H. injection H as <-. lia. }
  assert (in_table self "/cam1") as Hin by (vm_compute; eauto).
  split; [done|]. split; [exact I|].
  destruct (present_iff_positive Ex.unlimited Ex.allow_all calls
              (CallClientClosed Ex.B) Hrun I) as (H1 & _ & H3).
  split; [exact H1|]. split; [exact Hin|].
  apply (H3 "/cam1" Hin). exists Ex.B, {["/cam1"]}.
  split; [reflexivity|]. split; [reflexivity|].
  split; [by apply elem_of_singleton | reflexivity].
Defined.

(** The count of [/cam1] after client [A] has asked for it [n] times. *)
Lemma request_again_iter (n : N) :
  (0 < n)%N →
  callbacks (p (N.iter n Ex.request_again Ex.fresh)) = Ex.allow_all ∧
  pathsRefs (p (N.iter n Ex.request_again Ex.fresh)) =
    {["/cam1" := uint32_t (Z.of_N n)]}.
Proof.
  induction n as [|n IH] using N.peano_ind; [lia|]. intros _.
  rewrite N.iter_succ.
  destruct (decide (n = 0%N)) as [->|Hn]; [by split|].
  destruct IH as [Hcb Hrefs]; [lia|].
  set (s := N.iter n Ex.request_again Ex.fresh) in *.
  assert (authorize_access s (Ex.ctx Ex.A) (Ex.play "/cam1") = true) as E1.
  { unfold authorize_access. by rewrite Hcb. }
  destruct (make_path_admitted Ex.unlimited s (Ex.ctx Ex.A) (Ex.play "/cam1") E1
              eq_refl eq_refl) as (_ & Hcb' & _ & H).
  change (abspath (Ex.play "/cam1")) with "/cam1" in H.
  rewrite Hrefs, lookup_singleton_eq in H. destruct H as (Hrefs' & _).
  unfold Ex.request_again. split; [congruence|].
  rewrite Hrefs', insert_singleton_eq. f_equal.
  unfold uint32_t. rewrite Z.add_mod_idemp_l by done. f_equal. lia.
Qed.

(** C4, counterexample to the unqualified invariant: when no per-path limit
    is configured and one client has asked for a path [2 ^ 32] times, the
    path has an entry whose count is 0. *)
Lemma refcount_wraps_to_zero :
  ¬ (in_table (N.iter (2 ^ 32) Ex.request_again Ex.fresh) "/cam1" ↔
     0 < refcount (N.iter (2 ^ 32) Ex.request_again Ex.fresh) "/cam1").
Proof.
  destruct (request_again_iter (2 ^ 32) eq_refl) as [_ Hrefs].
  unfold in_table, refcount. rewrite Hrefs, lookup_singleton_eq.
  change (uint32_t (Z.of_N (2 ^ 32))) with 0. simpl.
  intros [H _]. specialize (H (mk_is_Some _ _ eq_refl)). lia.
Qed.

(** ** Channel names *)











(** The registry after client [A] has visited [/cam1] [n] times. *)
Lemma visit_iter (n : N) :
  callbacks (p (N.iter n Ex.visit Ex.fresh)) = Ex.allow_all ∧
  pathsRefs (p (N.iter n Ex.visit Ex.fresh)) = ∅ ∧
  clientsToPaths (p (N.iter n Ex.visit Ex.fresh)) = ∅ ∧
  proxy (N.iter n Ex.visit Ex.fresh) = uint64_t (Z.of_N n).
Proof.
  induction n as [|n IH] using N.peano_ind; [done|].
  rewrite N.iter_succ.
  destruct IH as (Hcb & Hrefs & Hcl & Hpx).
  set (s := N.iter n Ex.visit Ex.fresh) in *.
  assert (authorize_access s (Ex.ctx Ex.A) (Ex.play "/cam1") = true) as E1.
  { unfold authorize_access. by rewrite Hcb. }
  destruct (make_path_admitted Ex.unlimited s (Ex.ctx Ex.A) (Ex.play "/cam1") E1
              eq_refl eq_refl) as (_ & Hcb1 & Hcl1 & H).
  change (abspath (Ex.play "/cam1")) with "/cam1" in *.
  change (client (Ex.ctx Ex.A)) with Ex.A in *.
  rewrite Hrefs, lookup_empty in H. destruct H as (Hrefs1 & Hpx1 & _).
  unfold admit_client in Hcl1. rewrite Hcl, lookup_empty in Hcl1.
  fold (Ex.request_again s) in Hcb1, Hcl1, Hrefs1, Hpx1.
  assert (clientsToPaths (p (Ex.request_again s)) !! Ex.A = Some {["/cam1"]}) as Ec
    by (rewrite Hcl1; apply lookup_insert_eq).
  destruct (client_closed_tracked (Ex.request_again s) Ex.A _ Ec)
    as (Hcb2 & Hcl2 & Hpx2 & Hrefs2 & _).
  fold (Ex.visit s) in Hcb2, Hcl2, Hpx2, Hrefs2.
  split_and!.
  - congruence.
  - apply map_eq. intros path. rewrite Hrefs2, Hrefs1, lookup_empty.
    case_decide as Hin.
    + apply elem_of_singleton in Hin as ->. by rewrite lookup_insert_eq.
    + rewrite lookup_insert_ne, lookup_empty; [done|].
      intros <-. apply Hin. by apply elem_of_singleton.
  - rewrite Hcl2, Hcl1. by rewrite delete_insert_eq, delete_empty.
  - rewrite Hpx2, Hpx1, Hpx. unfold uint64_t.
    rewrite Z.add_mod_idemp_l by done. f_equal. lia.
Qed.

(** The bound [2 ^ 64] is the exact one: the subscribe endpoint created by
    the first request to a new registry is named [proxy0], and so is the one
    created by the request that follows [2 ^ 64] visits, each of which
    created, and tore down, a path entry. *)
Lemma channel_name_reused :
  ¬ NoDup
      (channel_names
         (effects (make_path Ex.unlimited Ex.fresh
                     (Some (Ex.ctx Ex.A)) (Ex.play "/cam1"))) ++
       channel_names
         (effects (make_path Ex.unlimited (N.iter (2 ^ 64) Ex.visit Ex.fresh)
                     (Some (Ex.ctx Ex.A)) (Ex.play "/cam1")))).
Proof.
  destruct (visit_iter (2 ^ 64)) as (Hcb & Hrefs & _ & Hpx).
  set (s := N.iter (2 ^ 64) Ex.visit Ex.fresh) in *.
  assert (authorize_access s (Ex.ctx Ex.A) (Ex.play "/cam1") = true) as E1.
  { unfold authorize_access. by rewrite Hcb. }
  destruct (make_path_admitted Ex.unlimited s (Ex.ctx Ex.A) (Ex.play "/cam1") E1
              eq_refl eq_refl) as (_ & _ & _ & H).
  change (abspath (Ex.play "/cam1")) with "/cam1" in H.
  rewrite Hrefs, lookup_empty in H. destruct H as (_ & _ & _ & ->).
  rewrite Hpx. change (uint64_t (Z.of_N (2 ^ 64))) with 0.
  change (channel_names _) with ["proxy0"].
  change (format_proxy 0) with "proxy0".
  intros Hnd. apply NoDup_cons in Hnd as [Hnotin _].
  apply Hnotin. by left.
Qed.

(** * Further properties of the registry *)

(** ** Authorization *)

(** X1.  The query part of the URL only selects the string [make_path]
    returns: two requests in the same context for the same absolute path,
    one to publish and one to subscribe, are authorized alike, leave the
    same registry behind, have the same effects, and are both admitted or
    both rejected.  A request whose token has no role field, or an empty
    role, is treated in every respect like a request without token. *)
Theorem make_path_ignores_query_and_empty_role cfg self :
  (∀ context url1 url2,
     abspath url1 = abspath url2 →
     after (make_path cfg self context url1)
       = after (make_path cfg self context url2) ∧
     effects (make_path cfg self context url1)
       = effects (make_path cfg self context url2) ∧
     (value (make_path cfg self context url1) = None ↔
      value (make_path cfg self context url2) = None)) ∧
  (∀ c (t : gmap string string) url,
     t !! GST_RTSP_TOKEN_MEDIA_FACTORY_ROLE = None ∨
     t !! GST_RTSP_TOKEN_MEDIA_FACTORY_ROLE = Some "" →
     make_path cfg self (Some {| client := c; token := Some t |}) url
       = make_path cfg self (Some {| client := c; token := None |}) url).
Proof.
  split.
  - intros context [a q1] [a2 q2] Ha. simpl in Ha. subst a2.
    assert (∀ ctx, authorize_access self ctx {| abspath := a; query := q1 |}
                   = authorize_access self ctx {| abspath := a; query := q2 |})
      as Hauth by done.
    destruct (make_path_outcome cfg self context {| abspath := a; query := q1 |})
      as [(Hn & Hs & _) | (ctx & -> & E1 & E2 & E3)].
    + destruct context as [ctx|]; [|done].
      destruct (authorize_access self ctx {| abspath := a; query := q1 |}) eqn:E1.
      2:{ rewrite !make_path_denied by (by rewrite <- ?Hauth). done. }
      destruct (paths_full cfg self a) eqn:E2.
      { rewrite !make_path_paths_full by (by rewrite <- ?Hauth). done. }
      destruct (clients_full cfg self a) eqn:E3.
      { rewrite !make_path_clients_full by (by rewrite <- ?Hauth). done. }
      destruct (make_path_admitted cfg self ctx _ E1 E2 E3) as (Hv & _).
      congruence.
    + unfold make_path. rewrite <- Hauth, E1. simpl.
      unfold paths_full in E2. simpl in E2. rewrite E2.
      unfold clients_full in E3. simpl in E3. rewrite E3.
      destruct (clientsToPaths (p self) !! client ctx);
        destruct (pathsRefs (p self) !! a); simpl; done.
  - intros c t url Ht. unfold make_path, authorize_access, gst_rtsp_token_get_string.
    simpl. by destruct Ht as [-> | ->].
Qed.

Lemma make_path_ignores_query_and_empty_role_witness :
  after (make_path Ex.unlimited Ex.guarded
           (Some (Ex.with_role Ex.A "admin")) (Ex.record "/cam1"))
    = after (make_path Ex.unlimited Ex.guarded
               (Some (Ex.with_role Ex.A "admin")) (Ex.play "/cam1")) ∧
  value (make_path Ex.unlimited Ex.guarded
           (Some (Ex.with_role Ex.A "admin")) (Ex.record "/cam1"))
    = Some "/cam1?record" ∧
  make_path Ex.unlimited Ex.guarded (Some (Ex.without_role Ex.B)) (Ex.play "/cam1")
    = make_path Ex.unlimited Ex.guarded (Some (Ex.ctx Ex.B)) (Ex.play "/cam1") ∧
  value (make_path Ex.unlimited Ex.guarded (Some (Ex.ctx Ex.B)) (Ex.play "/cam1"))
    = None.
Proof.
  destruct (make_path_ignores_query_and_empty_role Ex.unlimited Ex.guarded)
    as [Hq Ht].
  split; [|split; [reflexivity|split; [|reflexivity]]].
  - apply (Hq (Some (Ex.with_role Ex.A "admin")) (Ex.record "/cam1") (Ex.play "/cam1")).
    reflexivity.
  - apply (Ht Ex.B ∅ (Ex.play "/cam1")). left. reflexivity.
Defined.

(** ** Admission *)

(** X2.  [make_path] returns a path exactly when it runs in a request
    context, the access is authorized, the path limit does not stop a new
    path and the per-path limit does not stop a known one. *)
Theorem make_path_succeeds_iff cfg self context url :
  is_Some (value (make_path cfg self context url)) ↔
  ∃ ctx,
    context = Some ctx ∧
    authorize_access self ctx url = true ∧
    ¬ (0 < MAX_PATHS_COUNT cfg ∧
       pathsRefs (p self) !! abspath url = None ∧
       MAX_PATHS_COUNT cfg ≤ Z.of_nat (size (pathsRefs (p self)))) ∧
    ¬ (0 < MAX_CLIENTS_PER_PATH cfg ∧
       ∃ refs, pathsRefs (p self) !! abspath url = Some refs ∧
               MAX_CLIENTS_PER_PATH cfg ≤ refs).
Proof.
  assert (paths_full cfg self (abspath url) = true ↔
          0 < MAX_PATHS_COUNT cfg ∧
          pathsRefs (p self) !! abspath url = None ∧
          MAX_PATHS_COUNT cfg ≤ Z.of_nat (size (pathsRefs (p self)))) as HP.
  { unfold paths_full.
    rewrite !andb_true_iff, bool_decide_eq_true, Z.ltb_lt, Z.leb_le. tauto. }
  assert (clients_full cfg self (abspath url) = true ↔
          0 < MAX_CLIENTS_PER_PATH cfg ∧
          ∃ refs, pathsRefs (p self) !! abspath url = Some refs ∧
                  MAX_CLIENTS_PER_PATH cfg ≤ refs) as HC.
  { unfold clients_full. rewrite andb_true_iff.
    destruct (pathsRefs (p self) !! abspath url) as [r|].
    - rewrite Z.ltb_lt, Z.leb_le. split.
      + intros [? ?]. split; [done|]. by exists r.
      + intros [? (r' & [= <-] & ?)]. done.
    - split; [intros [_ ?]; done | intros [_ (r' & ? & _)]; done]. }
  split.
  - intros [s Hs]. destruct context as [ctx|]; [|done]. exists ctx.
    destruct (authorize_access self ctx url) eqn:E1;
      [|rewrite make_path_denied in Hs; done].
    destruct (paths_full cfg self (abspath url)) eqn:E2;
      [rewrite make_path_paths_full in Hs; done|].
    destruct (clients_full cfg self (abspath url)) eqn:E3;
      [rewrite make_path_clients_full in Hs; done|].
    split_and!; [done | done | |].
    + intros H. apply HP in H. congruence.
    + intros H. apply HC in H. congruence.
  - intros (ctx & -> & E1 & HnP & HnC).
    assert (paths_full cfg self (abspath url) = false) as E2
      by (apply not_true_is_false; intros H; by apply HnP, HP).
    assert (clients_full cfg self (abspath url) = false) as E3
      by (apply not_true_is_false; intros H; by apply HnC, HC).
    destruct (make_path_admitted cfg self ctx url E1 E2 E3) as [-> _]. eauto.
Qed.

(** ** Disconnects, again *)

(** X3.  A second [client_closed] for the same client changes nothing more:
    the first one has removed the client's entry, so the second finds none
    and only logs. *)
Theorem client_closed_twice self c :
  after (client_closed (after (client_closed self c)) c)
    = after (client_closed self c) ∧
  effects (client_closed (after (client_closed self c)) c)
    = [Log debug "Client didn't use any path. client: {}" [ArgPtr c]].
Proof.
  assert (clientsToPaths (p (after (client_closed self c))) !! c = None) as E.
  { destruct (clientsToPaths (p self) !! c) as [held|] eqn:Ec.
    - destruct (client_closed_tracked self c held Ec) as (_ & -> & _).
      apply lookup_delete_eq.
    - by rewrite client_closed_untracked. }
  by rewrite (client_closed_untracked _ _ E).
Qed.

(** X4.  When the count of a held path is 0 at the time its holder
    disconnects, the decrement wraps: the entry stays, with the largest
    [uint32_t] as count. *)
Theorem client_closed_zero_count_wraps self c held path :
  clientsToPaths (p self) !! c = Some held →
  path ∈ held →
  pathsRefs (p self) !! path = Some 0 →
  pathsRefs (p (after (client_closed self c))) !! path = Some 4294967295.
Proof.
  intros Ec Hin Ep.
  destruct (client_closed_tracked self c held Ec) as (_ & _ & _ & Hrefs & _).
  by rewrite Hrefs, decide_True, Ep.
Qed.

Lemma client_closed_zero_count_wraps_witness :
  let self :=
    {| parent_instance := ∅; proxy := 1;
       p := {| callbacks := Ex.allow_all;
               pathsRefs := {["/cam1" := 0]};
               clientsToPaths := {[Ex.A := {["/cam1"]}]} |} |} in
  pathsRefs (p (after (client_closed self Ex.A))) !! "/cam1" = Some 4294967295.
Proof.
  intros self.
  apply (client_closed_zero_count_wraps self Ex.A {["/cam1"]} "/cam1").
  - reflexivity.
  - by apply elem_of_singleton.
  - reflexivity.
Defined.

(** ** The client table *)

Lemma admit_client_lookup self c path c' :
  admit_client self c path !! c' =
    if decide (c = c')
    then Some (match clientsToPaths (p self) !! c with
               | None => {[path]}
               | Some paths => {[path]} ∪ paths
               end)
    else clientsToPaths (p self) !! c'.
Proof.
  unfold admit_client.
  destruct (clientsToPaths (p self) !! c); by rewrite lookup_insert.
Qed.

(** X5.  A call made for one client leaves the set of paths held by every
    other client as it is. *)
Theorem other_clients_untouched cfg self call c' :
  caller call ≠ Some c' →
  clientsToPaths (p (step cfg self call).2) !! c' = clientsToPaths (p self) !! c'.
Proof.
  intros Hc. destruct call as [context url | c]; simpl in *.
  - destruct (make_path_outcome cfg self context url)
      as [(_ & -> & _) | (ctx & -> & E1 & E2 & E3)]; [done|].
    destruct (make_path_admitted cfg self ctx url E1 E2 E3) as (_ & _ & -> & _).
    rewrite admit_client_lookup, decide_False; [done|]. naive_solver.
  - destruct (clientsToPaths (p self) !! c) as [held|] eqn:Ec.
    + destruct (client_closed_tracked self c held Ec) as (_ & -> & _).
      apply lookup_delete_ne. naive_solver.
    + by rewrite client_closed_untracked.
Qed.

Lemma other_clients_untouched_witness :
  let s1 := after (make_path Ex.unlimited Ex.fresh (Some (Ex.ctx Ex.A)) (Ex.play "/cam1")) in
  caller (CallClientClosed Ex.B) ≠ Some Ex.A ∧
  clientsToPaths (p (step Ex.unlimited s1 (CallClientClosed Ex.B)).2) !! Ex.A
    = Some {["/cam1"]}.
Proof.
  intros s1.
  assert (caller (CallClientClosed Ex.B) ≠ Some Ex.A) as H by discriminate.
  split; [done|].
  rewrite (other_clients_untouched Ex.unlimited s1 (CallClientClosed Ex.B) Ex.A H).
  reflexivity.
Defined.

(** X6.  After a successful [make_path] the requesting client holds the
    requested path, the path has an entry, and the client still holds every
    path it held before. *)
Theorem make_path_success_registers cfg self ctx url (s : string) :
  value (make_path cfg self (Some ctx) url) = Some s →
  holds (after (make_path cfg self (Some ctx) url)) (client ctx) (abspath url) = true ∧
  in_table (after (make_path cfg self (Some ctx) url)) (abspath url) ∧
  (∀ path, holds self (client ctx) path = true →
           holds (after (make_path cfg self (Some ctx) url)) (client ctx) path = true).
Proof.
  intros Hv.
  destruct (make_path_outcome cfg self (Some ctx) url)
    as [(Hn & _) | (ctx' & [= <-] & E1 & E2 & E3)]; [congruence|].
  destruct (make_path_admitted cfg self ctx url E1 E2 E3) as (_ & _ & Hcl & H).
  unfold holds, in_table. rewrite Hcl, admit_client_lookup, decide_True by done.
  split_and!.
  - apply bool_decide_eq_true.
    destruct (clientsToPaths (p self) !! client ctx); set_solver.
  - destruct (pathsRefs (p self) !! abspath url);
      destruct H as (-> & _); rewrite lookup_insert_eq; eauto.
  - intros path.
    destruct (clientsToPaths (p self) !! client ctx); [|done].
    rewrite !bool_decide_eq_true. set_solver.
Qed.

Lemma make_path_success_registers_witness :
  let s1 := after (make_path Ex.unlimited Ex.fresh (Some (Ex.ctx Ex.A)) (Ex.play "/cam1")) in
  let r2 := make_path Ex.unlimited s1 (Some (Ex.ctx Ex.A)) (Ex.record "/cam2") in
  value r2 = Some "/cam2?record" ∧
  holds (after r2) Ex.A "/cam2" = true ∧
  in_table (after r2) "/cam2" ∧
  holds (after r2) Ex.A "/cam1" = true.
Proof.
  intros s1 r2. split; [reflexivity|].
  destruct (make_path_success_registers Ex.unlimited s1 (Ex.ctx Ex.A)
              (Ex.record "/cam2") "/cam2?record" eq_refl) as (H1 & H2 & H3).
  split; [exact H1|]. split; [exact H2|]. apply H3. reflexivity.
Defined.

(** X7.  [make_path] connects the [closed] signal of a client exactly when
    it admits a request of a client that has no entry in the client table;
    it connects no other signal and no other client's.  After any admitted
    request the client has an entry, so a further request connects
    nothing. *)
Theorem signal_connected_iff_new_client cfg self context url c (sig : string) :
  (g_signal_connect c sig ∈ effects (make_path cfg self context url) ↔
   ∃ ctx, context = Some ctx ∧ c = client ctx ∧ sig = "closed" ∧
          is_Some (value (make_path cfg self context url)) ∧
          clientsToPaths (p self) !! c = None) ∧
  (∀ ctx, context = Some ctx →
          is_Some (value (make_path cfg self context url)) →
          is_Some (clientsToPaths (p (after (make_path cfg self context url)))
                     !! client ctx)).
Proof.
  destruct (make_path_outcome cfg self context url)
    as [(Hn & _ & Hsil) | (ctx & -> & E1 & E2 & E3)].
  - rewrite Hn. split.
    + split.
      * intros Hin. rewrite Forall_forall in Hsil. by apply Hsil in Hin.
      * intros (_ & _ & _ & _ & [? ?] & _). done.
    + intros ? _ [? ?]. done.
  - destruct (make_path_admitted cfg self ctx url E1 E2 E3) as (Hv & _ & Hcl & _).
    rewrite Hv, Hcl. split.
    2:{ intros ? [= <-] _. rewrite admit_client_lookup, decide_True by done. eauto. }
    unfold make_path. rewrite E1. simpl.
    unfold paths_full in E2. rewrite E2.
    unfold clients_full in E3. rewrite E3.
    destruct (clientsToPaths (p self) !! client ctx) as [paths|] eqn:Ec;
      destruct (pathsRefs (p self) !! abspath url) as [refs|]; simpl; split.
    all: try (intros Hin;
              repeat (apply elem_of_cons in Hin as [Hin|Hin];
                      [first [discriminate Hin
                             | injection Hin as Hc Hs; subst c sig;
                               exists ctx; split_and!; eauto]|]);
              by apply elem_of_nil in Hin).
    all: try (intros (ctx' & [= <-] & -> & _ & _ & Hnone); congruence).
    all: intros (ctx' & [= <-] & -> & -> & _ & _); present_effect.
Qed.

(** ** Limits as invariants *)

Lemma run_cons_effects cfg self call calls :
  (run cfg self (call :: calls)).1 =
    (step cfg self call).1 ++ (run cfg (step cfg self call).2 calls).1.
Proof.
  cbn [run]. destruct (step cfg self call) as [es self1]. cbn [fst snd].
  by destruct (run cfg self1 calls).
Qed.

Lemma run_invariant (I : RtspMountPoints → Prop) cfg :
  (∀ self call, I self → I (step cfg self call).2) →
  ∀ calls self, I self → I (run cfg self calls).2.
Proof.
  intros Hstep calls. induction calls as [|call calls IH]; intros self HI; [done|].
  rewrite run_cons_after. by apply IH, Hstep.
Qed.

Lemma client_closed_entries self c path :
  is_Some (pathsRefs (p (after (client_closed self c))) !! path) →
  is_Some (pathsRefs (p self) !! path).
Proof.
  destruct (clientsToPaths (p self) !! c) as [held|] eqn:Ec.
  - destruct (client_closed_tracked self c held Ec) as (_ & _ & _ & -> & _).
    case_decide; [|done].
    destruct (pathsRefs (p self) !! path); [eauto | by intros [? ?]].
  - by rewrite client_closed_untracked.
Qed.

Lemma step_paths_count cfg self call :
  0 < MAX_PATHS_COUNT cfg →
  Z.of_nat (size (pathsRefs (p self))) ≤ MAX_PATHS_COUNT cfg →
  Z.of_nat (size (pathsRefs (p (step cfg self call).2))) ≤ MAX_PATHS_COUNT cfg.
Proof.
  intros HP Hsize. destruct call as [context url | c]; simpl.
  - destruct (make_path_outcome cfg self context url)
      as [(_ & -> & _) | (ctx & -> & E1 & E2 & E3)]; [done|].
    destruct (make_path_admitted cfg self ctx url E1 E2 E3) as (_ & _ & _ & H).
    unfold paths_full in E2.
    destruct (pathsRefs (p self) !! abspath url) as [refs|] eqn:Ep;
      destruct H as (-> & _).
    + rewrite map_size_insert_Some by eauto. done.
    + rewrite map_size_insert_None by done.
      rewrite bool_decide_eq_true_2, andb_true_r in E2 by done.
      apply andb_false_iff in E2 as [E2|E2]; lia.
  - etrans; [|exact Hsize]. apply inj_le.
    rewrite <- !(size_dom (D := gset string)). apply subseteq_size.
    intros path. rewrite !elem_of_dom. apply client_closed_entries.
Qed.

(** X8.  With a limit [P > 0] on the number of paths, the path table of a
    registry never holds more than [P] entries, whatever calls are made. *)
Theorem paths_count_bounded cfg cb calls :
  0 < MAX_PATHS_COUNT cfg →
  Z.of_nat (size (pathsRefs (p (run cfg (rtsp_mount_points_new cb) calls).2)))
    ≤ MAX_PATHS_COUNT cfg.
Proof.
  intros HP.
  apply (run_invariant
           (λ self, Z.of_nat (size (pathsRefs (p self))) ≤ MAX_PATHS_COUNT cfg)).
  - intros self call. by apply step_paths_count.
  - simpl. rewrite map_size_empty. lia.
Qed.

Lemma paths_count_bounded_witness :
  let calls :=
    [CallMakePath (Some (Ex.ctx Ex.A)) (Ex.play "/cam1");
     CallMakePath (Some (Ex.ctx Ex.A)) (Ex.play "/cam2");
     CallMakePath (Some (Ex.ctx Ex.B)) (Ex.play "/cam3");
     CallClientClosed Ex.A;
     CallMakePath (Some (Ex.ctx Ex.B)) (Ex.play "/cam3")] in
  0 < MAX_PATHS_COUNT Ex.two_paths ∧
  Z.of_nat (size (pathsRefs (p (run Ex.two_paths Ex.fresh calls).2))) ≤ 2.
Proof.
  intros calls.
  assert (0 < MAX_PATHS_COUNT Ex.two_paths) as HP by reflexivity.
  split; [done|].
  apply (paths_count_bounded Ex.two_paths Ex.allow_all calls HP).
Defined.

Lemma step_within_limit cfg self call :
  0 < MAX_CLIENTS_PER_PATH cfg < 2 ^ 32 →
  within_limit (MAX_CLIENTS_PER_PATH cfg) self →
  within_limit (MAX_CLIENTS_PER_PATH cfg) (step cfg self call).2.
Proof.
  intros HL Hlim. unfold within_limit in *.
  destruct call as [context url | c]; simpl.
  - destruct (make_path_outcome cfg self context url)
      as [(_ & -> & _) | (ctx & -> & E1 & E2 & E3)]; [done|].
    destruct (make_path_admitted cfg self ctx url E1 E2 E3) as (_ & _ & _ & H).
    unfold clients_full in E3.
    destruct (pathsRefs (p self) !! abspath url) as [r|] eqn:Ep;
      destruct H as (-> & _); intros path refs;
      rewrite lookup_insert; case_decide; try apply Hlim.
    + intros [= <-]. specialize (Hlim _ _ Ep).
      apply andb_false_iff in E3 as [E3|E3]; [lia|].
      rewrite uint32_t_small; lia.
    + intros [= <-]. lia.
  - destruct (clientsToPaths (p self) !! c) as [held|] eqn:Ec.
    2:{ by rewrite client_closed_untracked. }
    destruct (client_closed_tracked self c held Ec) as (_ & _ & _ & Hrefs & _).
    intros path refs. rewrite Hrefs. case_decide; [|apply Hlim].
    destruct (pathsRefs (p self) !! path) as [r|] eqn:Ep; [|done].
    specialize (Hlim _ _ Ep). intros Hd.
    apply dec_ref_Some in Hd; lia.
Qed.

(** X9.  With a per-path limit [L], [0 < L < 2 ^ 32], every count in the
    path table of a registry lies between 1 and [L], whatever calls are
    made; no count wraps, and a path has an entry exactly when its count is
    positive. *)
Theorem counts_within_limit cfg cb calls :
  0 < MAX_CLIENTS_PER_PATH cfg < 2 ^ 32 →
  within_limit (MAX_CLIENTS_PER_PATH cfg) (run cfg (rtsp_mount_points_new cb) calls).2 ∧
  (∀ path,
     in_table (run cfg (rtsp_mount_points_new cb) calls).2 path ↔
     0 < refcount (run cfg (rtsp_mount_points_new cb) calls).2 path).
Proof.
  intros HL.
  assert (within_limit (MAX_CLIENTS_PER_PATH cfg)
            (run cfg (rtsp_mount_points_new cb) calls).2) as Hlim.
  { apply (run_invariant (within_limit (MAX_CLIENTS_PER_PATH cfg))).
    - intros self call. by apply step_within_limit.
    - intros path refs. simpl. by rewrite lookup_empty. }
  split; [done|]. apply table_positive_iff.
  intros path refs Ep. specialize (Hlim _ _ Ep). lia.
Qed.

Lemma counts_within_limit_witness :
  let calls :=
    [CallMakePath (Some (Ex.ctx Ex.A)) (Ex.play "/cam1");
     CallMakePath (Some (Ex.ctx Ex.A)) (Ex.play "/cam1");
     CallMakePath (Some (Ex.ctx Ex.B)) (Ex.play "/cam1")] in
  0 < MAX_CLIENTS_PER_PATH Ex.one_client < 2 ^ 32 ∧
  within_limit 1 (run Ex.one_client Ex.fresh calls).2 ∧
  refcount (run Ex.one_client Ex.fresh calls).2 "/cam1" = 1.
Proof.
  intros calls.
  assert (0 < MAX_CLIENTS_PER_PATH Ex.one_client < 2 ^ 32) as HL by (simpl; lia).
  split; [done|]. split; [|reflexivity].
  apply (counts_within_limit Ex.one_client Ex.allow_all calls HL).
Defined.

(** ** Counts and holders *)

Lemma holders_delete (m : gmap GstRTSPClient (gset string)) c (path : string) :
  Z.of_nat (size (filter (λ cs, path ∈ cs.2) (delete c m))) =
  Z.of_nat (size (filter (λ cs, path ∈ cs.2) m))
  - match m !! c with
    | Some held => if decide (path ∈ held) then 1 else 0
    | None => 0
    end.
Proof.
  rewrite map_filter_delete, map_size_delete.
  destruct (filter (λ cs, path ∈ cs.2) m !! c) as [held|] eqn:E.
  - pose proof (map_size_ne_0_lookup_2 _ _ (mk_is_Some _ _ E)) as Hne.
    apply map_lookup_filter_Some in E as [-> HP]. simpl in HP.
    rewrite decide_True by done. lia.
  - apply map_lookup_filter_None in E as [-> | E]; [simpl; lia|].
    destruct (m !! c) as [held|]; [|simpl; lia].
    rewrite decide_False by (by apply (E held)). simpl. lia.
Qed.

Lemma holders_insert (m : gmap GstRTSPClient (gset string)) c held (path : string) :
  Z.of_nat (size (filter (λ cs, path ∈ cs.2) (<[c := held]> m))) =
  Z.of_nat (size (filter (λ cs, path ∈ cs.2) (delete c m)))
  + (if decide (path ∈ held) then 1 else 0).
Proof.
  rewrite <- (insert_delete_eq m). rewrite map_filter_insert. simpl.
  destruct (decide (path ∈ held)).
  - rewrite map_size_insert_None; [lia|].
    apply map_lookup_filter_None. left. apply lookup_delete_eq.
  - rewrite delete_delete_eq. lia.
Qed.

Lemma held_counted self c held path :
  clientsToPaths (p self) !! c = Some held → path ∈ held → 1 ≤ holders self path.
Proof.
  intros Ec Hin. unfold holders.
  pose proof (holders_delete (clientsToPaths (p self)) c path) as H.
  rewrite Ec, decide_True in H by done. lia.
Qed.

Lemma consistent_held_in_table self c held path :
  consistent self →
  clientsToPaths (p self) !! c = Some held → path ∈ held → in_table self path.
Proof.
  intros [Hpos Hle] Ec Hin.
  pose proof (held_counted self c held path Ec Hin) as H1.
  specialize (Hle path). unfold in_table, refcount in *.
  destruct (pathsRefs (p self) !! path); [eauto | simpl in Hle; lia].
Qed.

Lemma step_consistent cfg self call :
  consistent self → no_wrap cfg self call → consistent (step cfg self call).2.
Proof.
  intros Hcons Hnw. pose proof Hcons as [Hpos Hle].
  split; [by destruct (step_table_positive cfg self call Hpos Hnw)|].
  intros path. specialize (Hle path). unfold holders, refcount in *.
  destruct call as [context url | c]; cbn [step snd no_wrap] in *.
  - destruct (make_path_outcome cfg self context url)
      as [(_ & -> & _) | (ctx & -> & E1 & E2 & E3)]; [done|].
    destruct (make_path_admitted cfg self ctx url E1 E2 E3) as (Hv & _ & -> & H).
    assert (∀ refs, pathsRefs (p self) !! abspath url = Some refs →
                    refs < 2 ^ 32 - 1) as Hnw'
      by (intros refs; apply Hnw; by rewrite Hv).
    clear Hnw Hv.
    pose proof (holders_delete (clientsToPaths (p self)) (client ctx) path) as Hd.
    assert (Z.of_nat (size (filter (λ cs, path ∈ cs.2)
                              (admit_client self (client ctx) (abspath url))))
            ≤ Z.of_nat (size (filter (λ cs, path ∈ cs.2) (clientsToPaths (p self))))
              + (if decide (path = abspath url) then 1 else 0)) as Hh.
    { assert (path ∈ ({[abspath url]} : gset string) ↔ path = abspath url) as Hs
        by apply elem_of_singleton.
      unfold admit_client.
      destruct (clientsToPaths (p self) !! client ctx) as [held|].
      - assert (path ∈ {[abspath url]} ∪ held ↔ path = abspath url ∨ path ∈ held)
          as Hu by (rewrite elem_of_union, Hs; tauto).
        rewrite holders_insert, Hd.
        repeat case_decide; try lia; exfalso; tauto.
      - rewrite holders_insert, Hd.
        repeat case_decide; try lia; exfalso; tauto. }
    destruct (pathsRefs (p self) !! abspath url) as [r|] eqn:Ep;
      destruct H as (-> & _); rewrite lookup_insert;
      destruct (decide (abspath url = path)) as [<-|Hne];
      try (rewrite decide_False in Hh by done; lia).
    + rewrite decide_True in Hh by done. rewrite Ep in Hle. simpl in *.
      specialize (Hpos _ _ Ep). specialize (Hnw' r eq_refl).
      rewrite uint32_t_small; lia.
    + rewrite decide_True in Hh by done. rewrite Ep in Hle. simpl in *. lia.
  - destruct (clientsToPaths (p self) !! c) as [held|] eqn:Ec.
    2:{ by rewrite client_closed_untracked. }
    destruct (client_closed_tracked self c held Ec) as (_ & -> & _ & -> & _).
    rewrite holders_delete, Ec.
    destruct (decide (path ∈ held)) as [Hin|Hin]; [|lia].
    destruct (pathsRefs (p self) !! path) as [r|] eqn:Ep; simpl in *.
    + specialize (Hpos _ _ Ep). unfold dec_ref.
      rewrite uint32_t_small by lia.
      destruct (r - 1 =? 0) eqn:E0; simpl; lia.
    + pose proof (held_counted self c held path Ec Hin) as H1.
      unfold holders in H1. lia.
Qed.

Lemma consistent_new cb : consistent (rtsp_mount_points_new cb).
Proof.
  split; [apply table_positive_new|].
  intros path. unfold holders, refcount. simpl.
  by rewrite map_filter_empty, map_size_empty, lookup_empty.
Qed.

Lemma run_consistent cfg calls : ∀ self,
  consistent self → no_wrap_run cfg self calls →
  consistent (run cfg self calls).2.
Proof.
  induction calls as [|call calls IH]; intros self Hc Hnw; [done|].
  destruct Hnw as [Hnw1 Hnw]. rewrite run_cons_after.
  apply IH; [by apply step_consistent | done].
Qed.

(** X10.  In an execution from the creation of the registry in which no
    count wraps, the count of a path is never below the number of clients
    that hold it, and every path held by a client has an entry in the path
    table. *)
Theorem holders_le_refcount cfg cb calls :
  no_wrap_run cfg (rtsp_mount_points_new cb) calls →
  (∀ path,
     holders (run cfg (rtsp_mount_points_new cb) calls).2 path
     ≤ refcount (run cfg (rtsp_mount_points_new cb) calls).2 path) ∧
  (∀ c held path,
     clientsToPaths (p (run cfg (rtsp_mount_points_new cb) calls).2) !! c = Some held →
     path ∈ held →
     in_table (run cfg (rtsp_mount_points_new cb) calls).2 path).
Proof.
  intros Hnw.
  pose proof (run_consistent cfg calls _ (consistent_new cb) Hnw) as Hc.
  split; [by destruct Hc|].
  intros c held path. by apply consistent_held_in_table.
Qed.

Lemma holders_le_refcount_witness :
  let calls :=
    [CallMakePath (Some (Ex.ctx Ex.A)) (Ex.play "/cam1");
     CallMakePath (Some (Ex.ctx Ex.A)) (Ex.play "/cam1");
     CallMakePath (Some (Ex.ctx Ex.B)) (Ex.record "/cam1")] in
  no_wrap_run Ex.unlimited Ex.fresh calls ∧
  holders (run Ex.unlimited Ex.fresh calls).2 "/cam1" = 2 ∧
  refcount (run Ex.unlimited Ex.fresh calls).2 "/cam1" = 3 ∧
  holders (run Ex.unlimited Ex.fresh calls).2 "/cam1"
    ≤ refcount (run Ex.unlimited Ex.fresh calls).2 "/cam1".
Proof.
  intros calls.
  assert (no_wrap_run Ex.unlimited Ex.fresh calls) as Hnw.
  { split; [|split; [|split]]; try exact I.
    - intros refs _ H. vm_compute in H. discriminate.
    - intros refs _ H. vm_compute in H. injection H as <-. lia.
    - intros refs _ H. vm_compute in H. injection H as <-. lia. }
  split; [done|]. split; [reflexivity|]. split; [reflexivity|].
  apply (holders_le_refcount Ex.unlimited Ex.allow_all calls Hnw).
Defined.

(** ** No broken bookkeeping is reported *)

Lemma make_path_calm cfg self ctx url :
  (pathsRefs (p self) !! abspath url = None →
   holds self (client ctx) (abspath url) = false) →
  Forall calm (effects (make_path cfg self (Some ctx) url)).
Proof.
  intros Hheld. unfold make_path, holds in *.
  destruct (authorize_access self ctx url); simpl; [|by repeat constructor].
  destruct (_ && _ && _); [by repeat constructor|].
  destruct (_ && _); [by repeat constructor|].
  destruct (clientsToPaths (p self) !! client ctx) as [paths|];
    destruct (pathsRefs (p self) !! abspath url) as [refs|]; simpl;
    try (by repeat constructor).
  rewrite Hheld by done. by repeat constructor.
Qed.

Lemma client_closed_loop_calm c l : ∀ es self,
  NoDup l →
  (∀ path, path ∈ l → is_Some (pathsRefs (p self) !! path)) →
  Forall calm es →
  Forall calm (foldl (client_closed_path c) (es, self) l).1.
Proof.
  induction l as [|x l IH]; intros es self Hnd Hin Hes; cbn [foldl]; [done|].
  apply NoDup_cons in Hnd as [Hx Hnd].
  pose proof (client_closed_path_after c es self x) as (_ & _ & _ & Hrefs & _).
  assert (Forall calm (client_closed_path c (es, self) x).1) as Hes1.
  { unfold client_closed_path.
    destruct (Hin x) as [refs ->]; [by left|].
    destruct (uint32_t (refs - 1) =? 0); simpl;
      (apply Forall_app; split; [done | by repeat constructor]). }
  destruct (client_closed_path c (es, self) x) as [es1 self1].
  apply IH; [done| |done].
  intros path Hp. simpl in Hrefs. rewrite Hrefs.
  rewrite decide_False by (intros ->; done).
  apply Hin. by right.
Qed.

Lemma client_closed_calm self c :
  (∀ held path, clientsToPaths (p self) !! c = Some held → path ∈ held →
                in_table self path) →
  Forall calm (effects (client_closed self c)).
Proof.
  intros Hheld. unfold client_closed.
  destruct (clientsToPaths (p self) !! c) as [held|] eqn:Ec;
    [|by repeat constructor].
  pose proof (client_closed_loop_calm c (set_order held) [] self
                (set_order_NoDup held)) as H.
  destruct (foldl (client_closed_path c) ([], self) (set_order held))
    as [es self1].
  simpl in *. apply H; [|done].
  intros path Hin. apply (Hheld held); [done|]. by apply elem_of_set_order.
Qed.

Lemma step_calm cfg self call :
  consistent self → with_context call → Forall calm (step cfg self call).1.
Proof.
  intros Hcons Hctx. destruct call as [[ctx|] url | c]; simpl; [|done|].
  - apply make_path_calm. intros Ep. unfold holds.
    destruct (clientsToPaths (p self) !! client ctx) as [held|] eqn:Ec; [|done].
    apply bool_decide_eq_false. intros Hin.
    destruct (consistent_held_in_table self _ _ _ Hcons Ec Hin) as [r Hr].
    congruence.
  - apply client_closed_calm. intros held path.
    by apply consistent_held_in_table.
Qed.

(** X11.  In an execution from the creation of the registry in which no
    count wraps and every [make_path] runs in a request context, the
    bookkeeping is never found broken: no [assert] fails -- in particular a
    path without entry is never already held by the requesting client -- and
    the line "Inconsistent data in mount points reference counting" is never
    logged. *)
Theorem no_inconsistency_reported cfg cb calls :
  no_wrap_run cfg (rtsp_mount_points_new cb) calls →
  Forall with_context calls →
  Forall calm (run cfg (rtsp_mount_points_new cb) calls).1.
Proof.
  intros Hnw Hctx.
  pose proof (consistent_new cb) as Hcons.
  revert Hcons Hnw. generalize (rtsp_mount_points_new cb).
  induction Hctx as [|call calls Hc _ IH]; intros self Hcons Hnw; [done|].
  destruct Hnw as [Hnw1 Hnw]. rewrite run_cons_effects.
  apply Forall_app. split; [by apply step_calm|].
  apply IH; [by apply step_consistent | done].
Qed.

Lemma no_inconsistency_reported_witness :
  let calls :=
    [CallMakePath (Some (Ex.ctx Ex.A)) (Ex.play "/cam1");
     CallMakePath (Some (Ex.ctx Ex.A)) (Ex.play "/cam1");
     CallClientClosed Ex.A;
     CallClientClosed Ex.A] in
  no_wrap_run Ex.unlimited Ex.fresh calls ∧
  Forall with_context calls ∧
  Forall calm (run Ex.unlimited Ex.fresh calls).1.
Proof.
  intros calls.
  assert (no_wrap_run Ex.unlimited Ex.fresh calls) as Hnw.
  { split; [|split; [|split; [|split]]]; try exact I.
    - intros refs _ H. vm_compute in H. discriminate.
    - intros refs _ H. vm_compute in H. injection H as <-. lia. }
  assert (Forall with_context calls) as Hctx by (repeat constructor).
  split; [done|]. split; [done|].
  apply (no_inconsistency_reported Ex.unlimited Ex.allow_all calls Hnw Hctx).
Defined.

(** ** The mount table mirrors the path table *)

Lemma has_qmark_suffix (path : string) : has_qmark (path +:+ RecordSuffix) = true.
Proof.
  induction path as [|a path IH]; [done|].
  simpl. rewrite IH. apply orb_true_r.
Qed.

Lemma plain_not_suffixed (k path : string) :
  has_qmark k = false → k ≠ path +:+ RecordSuffix.
Proof. intros Hk ->. by rewrite has_qmark_suffix in Hk. Qed.

Lemma plain_suffix_inj (a b : string) :
  has_qmark a = false → has_qmark b = false →
  a +:+ RecordSuffix = b +:+ RecordSuffix → a = b.
Proof.
  revert b. induction a as [|x a IH]; intros [|y b] Ha Hb E; simpl in *.
  - done.
  - injection E as <- _. done.
  - injection E as -> _. done.
  - injection E as -> E. apply orb_false_iff in Ha as [_ Ha].
    apply orb_false_iff in Hb as [_ Hb]. f_equal. by apply IH.
Qed.

Lemma run_invariant_where (I : RtspMountPoints → Prop) (Q : Call → Prop) cfg :
  (∀ self call, I self → Q call → I (step cfg self call).2) →
  ∀ calls self, I self → Forall Q calls → I (run cfg self calls).2.
Proof.
  intros Hstep calls.
  induction calls as [|call calls IH]; intros self HI HQ; [done|].
  apply Forall_cons in HQ as [HQ1 HQ].
  rewrite run_cons_after. apply IH; [by apply Hstep | done].
Qed.

Lemma step_mounted_pairs cfg self call :
  mounted_pairs cfg self → plain_call call →
  mounted_pairs cfg (step cfg self call).2.
Proof.
  intros [Ha Hb] Hplain. unfold mounted_pairs, in_table in *.
  destruct call as [context url | c]; simpl in *.
  - destruct (make_path_outcome cfg self context url)
      as [(_ & -> & _) | (ctx & -> & E1 & E2 & E3)]; [done|].
    destruct (make_path_admitted cfg self ctx url E1 E2 E3) as (_ & _ & _ & H).
    destruct (pathsRefs (p self) !! abspath url) as [r|] eqn:Ep.
    + destruct H as (-> & _ & -> & _). split.
      * intros path. rewrite lookup_insert. case_decide; [subst|]; intros Hin.
        -- apply Ha. eauto.
        -- by apply Ha.
      * intros k Hk. destruct (Hb k Hk) as [Hin | (path & -> & Hin)].
        -- left. rewrite lookup_insert. case_decide; eauto.
        -- right. exists path. split; [done|].
           rewrite lookup_insert. case_decide; eauto.
    + destruct H as (-> & _ & -> & _). split.
      * intros path. rewrite lookup_insert.
        destruct (decide (abspath url = path)) as [<-|Hne].
        -- intros _. split; [done|]. exists (format_proxy (proxy self)).
           rewrite lookup_insert_ne by (by apply not_eq_sym, plain_not_suffixed).
           by rewrite !lookup_insert_eq.
        -- intros Hin. destruct (Ha path Hin) as (Hp & name & H1 & H2).
           split; [done|]. exists name.
           rewrite lookup_insert_ne by (by apply not_eq_sym, plain_not_suffixed).
           rewrite lookup_insert_ne by done.
           rewrite lookup_insert_ne
             by (intros E; by apply plain_suffix_inj in E).
           rewrite lookup_insert_ne by (by apply plain_not_suffixed).
           done.
      * intros k Hk.
        destruct (decide (abspath url +:+ RecordSuffix = k)) as [<-|Hk1].
        { right. exists (abspath url). split; [done|].
          rewrite lookup_insert_eq. eauto. }
        destruct (decide (abspath url = k)) as [<-|Hk2].
        { left. rewrite lookup_insert_eq. eauto. }
        rewrite !lookup_insert_ne in Hk by done.
        destruct (Hb k Hk) as [Hin | (path & -> & Hin)].
        -- left. by rewrite lookup_insert_ne.
        -- right. exists path. split; [done|].
           rewrite lookup_insert. case_decide; eauto.
  - destruct (clientsToPaths (p self) !! c) as [held|] eqn:Ec.
    2:{ by rewrite client_closed_untracked. }
    destruct (client_closed_tracked self c held Ec)
      as (_ & _ & _ & Hrefs & Hmono & Hrel & Hkeep & _).
    assert (∀ path, is_Some (pathsRefs (p self) !! path) →
                    ¬ is_Some (pathsRefs (p (after (client_closed self c))) !! path) →
                    path ∈ held ∧ released self path = true) as Hgone.
    { intros path [r Ep]. rewrite Hrefs, Ep. unfold released. rewrite Ep.
      case_decide; [|intros Hn; exfalso; apply Hn; eauto].
      unfold dec_ref. destruct (uint32_t (r - 1) =? 0); [done|].
      intros Hn. exfalso. apply Hn. eauto. }
    assert (∀ q, q ∈ held → released self q = true →
                 pathsRefs (p (after (client_closed self c))) !! q = None ∧
                 has_qmark q = false) as Hq.
    { intros q Hin Hr. unfold released in Hr.
      destruct (pathsRefs (p self) !! q) as [r|] eqn:Ep; [|done].
      split; [|apply Ha; eauto].
      rewrite Hrefs, decide_True, Ep by done. unfold dec_ref. by rewrite Hr. }
    split.
    + intros path Hin. pose proof (client_closed_entries _ _ _ Hin) as Hbefore.
      destruct (Ha path Hbefore) as (Hp & name & H1 & H2).
      split; [done|]. exists name. rewrite !Hkeep; [done| |].
      * intros q Hqin Hr. destruct (Hq q Hqin Hr) as [Hnone Hpq]. split.
        -- by apply not_eq_sym, plain_not_suffixed.
        -- intros E. apply plain_suffix_inj in E; [|done..]. subst q.
           rewrite Hnone in Hin. by destruct Hin.
      * intros q Hqin Hr. destruct (Hq q Hqin Hr) as [Hnone Hpq]. split.
        -- intros ->. rewrite Hnone in Hin. by destruct Hin.
        -- by apply plain_not_suffixed.
    + intros k Hk.
      assert (is_Some (parent_instance self !! k)) as Hk0.
      { destruct (parent_instance self !! k) eqn:E; [eauto|].
        rewrite (Hmono k E) in Hk. by destruct Hk. }
      destruct (Hb k Hk0) as [Hin | (path & -> & Hin)].
      * left.
        destruct (pathsRefs (p (after (client_closed self c))) !! k) eqn:E; [eauto|].
        destruct (Hgone k Hin) as [Hh Hr]; [rewrite E; by intros [? ?]|].
        destruct (Hrel k Hh Hr) as [Hn _]. rewrite Hn in Hk. by destruct Hk.
      * right. exists path. split; [done|].
        destruct (pathsRefs (p (after (client_closed self c))) !! path) eqn:E; [eauto|].
        destruct (Hgone path Hin) as [Hh Hr]; [rewrite E; by intros [? ?]|].
        destruct (Hrel path Hh Hr) as [_ Hn]. rewrite Hn in Hk. by destruct Hk.
Qed.

(** X12.  In an execution from the creation of the registry in which the
    requested absolute paths contain no question mark, the mount table
    mirrors the path table: for every path with an entry a subscribe
    endpoint is mounted at the path and a publish endpoint at the path
    followed by [?record], both built for the same channel name, and nothing
    is mounted anywhere else. *)
Theorem mounts_mirror_table cfg cb calls :
  Forall plain_call calls →
  (∀ path, in_table (run cfg (rtsp_mount_points_new cb) calls).2 path →
     ∃ name,
       parent_instance (run cfg (rtsp_mount_points_new cb) calls).2 !! path
         = Some (RtspPlayMediaFactory (splashSource cfg) name) ∧
       parent_instance (run cfg (rtsp_mount_points_new cb) calls).2
         !! (path +:+ "?record")
         = Some (RtspRecordMediaFactory name)) ∧
  (∀ k, is_Some (parent_instance (run cfg (rtsp_mount_points_new cb) calls).2 !! k) →
     in_table (run cfg (rtsp_mount_points_new cb) calls).2 k ∨
     ∃ path, k = path +:+ "?record" ∧
             in_table (run cfg (rtsp_mount_points_new cb) calls).2 path).
Proof.
  intros Hplain.
  assert (mounted_pairs cfg (run cfg (rtsp_mount_points_new cb) calls).2) as [Ha Hb].
  { apply (run_invariant_where (mounted_pairs cfg) plain_call);
      [apply step_mounted_pairs | | done].
    split.
    - intros path [r Hr]. simpl in Hr. by rewrite lookup_empty in Hr.
    - intros k [f Hf]. simpl in Hf. by rewrite lookup_empty in Hf. }
  split; [|done]. intros path Hin. by destruct (Ha path Hin) as (_ & ?).
Qed.

Lemma mounts_mirror_table_witness :
  let calls :=
    [CallMakePath (Some (Ex.ctx Ex.A)) (Ex.play "/cam1");
     CallClientClosed Ex.A;
     CallMakePath (Some (Ex.ctx Ex.B)) (Ex.record "/cam1")] in
  Forall plain_call calls ∧
  ∃ name,
    parent_instance (run Ex.unlimited Ex.fresh calls).2 !! "/cam1"
      = Some (RtspPlayMediaFactory (splashSource Ex.unlimited) name) ∧
    parent_instance (run Ex.unlimited Ex.fresh calls).2 !! "/cam1?record"
      = Some (RtspRecordMediaFactory name).
Proof.
  intros calls.
  assert (Forall plain_call calls) as Hplain by (repeat constructor).
  split; [done|].
  apply (proj1 (mounts_mirror_table Ex.unlimited Ex.allow_all calls Hplain) "/cam1").
  vm_compute. eauto.
Defined.

(** Without the restriction the mirror breaks: a request whose absolute
    path is another path's publish mount replaces that publish endpoint, and
    the disconnect of its client unmounts it. *)
Example suffixed_path_unmounts_publish_endpoint :
  let calls :=
    [CallMakePath (Some (Ex.ctx Ex.A)) (Ex.play "/cam1");
     CallMakePath (Some (Ex.ctx Ex.B)) (Ex.play "/cam1?record");
     CallClientClosed Ex.B] in
  in_table (run Ex.unlimited Ex.fresh calls).2 "/cam1" ∧
  parent_instance (run Ex.unlimited Ex.fresh calls).2 !! "/cam1?record" = None.
Proof. split; [vm_compute; eauto | reflexivity]. Qed.

(** ** How the two entry points compose *)

(** X13.  A request of a client without entry, once admitted and followed by
    that client's disconnect, leaves the path table and the client table as
    they were before the request (for a known path, provided its count was
    between 1 and [2 ^ 32 - 2]).  If the path was known, the mount table and
    the channel counter are as before too; if it was new, the counter has
    advanced by one and nothing is mounted at the path and at the path
    followed by [?record]. *)
Theorem request_then_close cfg self ctx url (s : string) :
  clientsToPaths (p self) !! client ctx = None →
  value (make_path cfg self (Some ctx) url) = Some s →
  (∀ refs, pathsRefs (p self) !! abspath url = Some refs → 0 < refs < 2 ^ 32 - 1) →
  let self' :=
    after (client_closed (after (make_path cfg self (Some ctx) url)) (client ctx)) in
  pathsRefs (p self') = pathsRefs (p self) ∧
  clientsToPaths (p self') = clientsToPaths (p self) ∧
  (in_table self (abspath url) →
   parent_instance self' = parent_instance self ∧ proxy self' = proxy self) ∧
  (¬ in_table self (abspath url) →
   parent_instance self' !! abspath url = None ∧
   parent_instance self' !! (abspath url +:+ "?record") = None ∧
   proxy self' = uint64_t (proxy self + 1)).
Proof.
  intros Ec Hv Hr self'.
  destruct (make_path_outcome cfg self (Some ctx) url)
    as [(Hn & _) | (ctx' & [= <-] & E1 & E2 & E3)]; [congruence|].
  destruct (make_path_admitted cfg self ctx url E1 E2 E3) as (_ & _ & Hcl & H).
  unfold admit_client in Hcl. rewrite Ec in Hcl.
  set (s1 := after (make_path cfg self (Some ctx) url)) in *.
  assert (clientsToPaths (p s1) !! client ctx = Some {[abspath url]}) as Ec1
    by (rewrite Hcl; apply lookup_insert_eq).
  destruct (client_closed_tracked s1 (client ctx) _ Ec1)
    as (_ & Hcl' & Hpx' & Hrefs' & _ & Hrel & Hkeep & _).
  fold self' in Hcl', Hpx', Hrefs', Hrel, Hkeep.
  assert (clientsToPaths (p self') = clientsToPaths (p self)) as Hclients.
  { rewrite Hcl', Hcl, delete_insert_eq. by apply delete_id. }
  unfold in_table.
  destruct (pathsRefs (p self) !! abspath url) as [r|] eqn:Ep.
  - destruct H as (Hrefs1 & Hpx1 & Hm1 & _). specialize (Hr r eq_refl).
    assert (dec_ref (Some (uint32_t (r + 1))) = Some r) as Hdec.
    { unfold dec_ref. rewrite (uint32_t_small (r + 1)) by lia.
      replace (r + 1 - 1) with r by lia. rewrite uint32_t_small by lia.
      destruct (r =? 0) eqn:E0; [lia|done]. }
    split_and!; [|done| |intros Hn; exfalso; apply Hn; eauto].
    + apply map_eq. intros path. rewrite Hrefs', Hrefs1.
      case_decide as Hin.
      * apply elem_of_singleton in Hin as ->. by rewrite lookup_insert_eq, Hdec.
      * rewrite lookup_insert_ne; [done|].
        intros <-. apply Hin. by apply elem_of_singleton.
    + intros _. split; [|congruence].
      rewrite <- Hm1. apply map_eq. intros k. apply Hkeep.
      intros path Hin. apply elem_of_singleton in Hin as ->.
      unfold released. rewrite Hrefs1, lookup_insert_eq.
      rewrite (uint32_t_small (r + 1)) by lia.
      replace (r + 1 - 1) with r by lia. rewrite uint32_t_small by lia.
      intros E0. apply Z.eqb_eq in E0. lia.
  - destruct H as (Hrefs1 & Hpx1 & _).
    assert (released s1 (abspath url) = true) as Hrl.
    { unfold released. by rewrite Hrefs1, lookup_insert_eq. }
    split_and!; [|done|intros [? ?]; done|].
    + apply map_eq. intros path. rewrite Hrefs', Hrefs1.
      case_decide as Hin.
      * apply elem_of_singleton in Hin as ->. by rewrite lookup_insert_eq, Ep.
      * rewrite lookup_insert_ne; [done|].
        intros <-. apply Hin. by apply elem_of_singleton.
    + intros _.
      destruct (Hrel (abspath url)) as [H1 H2]; [by apply elem_of_singleton|done|].
      split_and!; [done|done|congruence].
Qed.

Lemma request_then_close_witness :
  let s1 := after (make_path Ex.unlimited Ex.fresh (Some (Ex.ctx Ex.A)) (Ex.play "/cam1")) in
  let s3 :=
    after (client_closed
             (after (make_path Ex.unlimited s1 (Some (Ex.ctx Ex.B)) (Ex.record "/cam1")))
             Ex.B) in
  clientsToPaths (p s1) !! Ex.B = None ∧
  value (make_path Ex.unlimited s1 (Some (Ex.ctx Ex.B)) (Ex.record "/cam1"))
    = Some "/cam1?record" ∧
  pathsRefs (p s3) = pathsRefs (p s1) ∧
  clientsToPaths (p s3) = clientsToPaths (p s1) ∧
  parent_instance s3 = parent_instance s1 ∧
  proxy s3 = proxy s1.
Proof.
  intros s1 s3. split; [reflexivity|]. split; [reflexivity|].
  assert (∀ refs, pathsRefs (p s1) !! abspath (Ex.record "/cam1") = Some refs →
                  0 < refs < 2 ^ 32 - 1) as Hr.
  { intros refs H. vm_compute in H. injection H as <-. lia. }
  destruct (request_then_close Ex.unlimited s1 (Ex.ctx Ex.B) (Ex.record "/cam1")
              "/cam1?record" eq_refl eq_refl Hr) as (H1 & H2 & H3 & _).
  split; [exact H1|]. split; [exact H2|].
  apply H3. vm_compute. eauto.
Defined.

Lemma client_closed_loop_mounts_subseteq c l : ∀ es self,
  parent_instance (foldl (client_closed_path c) (es, self) l).2
    ⊆ parent_instance self.
Proof.
  induction l as [|x l IH]; intros es self; cbn [foldl]; [done|].
  pose proof (client_closed_path_after c es self x) as (_ & _ & _ & _ & Hm).
  destruct (client_closed_path c (es, self) x) as [es1 self1].
  etrans; [apply IH|]. simpl in Hm. rewrite Hm.
  destruct (released self x); [|done].
  etrans; apply delete_subseteq.
Qed.

Lemma client_closed_mounts_subseteq self c :
  parent_instance (after (client_closed self c)) ⊆ parent_instance self.
Proof.
  unfold client_closed.
  destruct (clientsToPaths (p self) !! c) as [held|]; [|done].
  pose proof (client_closed_loop_mounts_subseteq c (set_order held) [] self) as H.
  by destruct (foldl (client_closed_path c) ([], self) (set_order held)).
Qed.

(** X14.  [make_path] only adds: a path that has an entry keeps it and a
    mount path that is taken stays taken.  [client_closed] only removes: it
    creates no entry, mounts nothing, changes no mounted factory and leaves
    the channel counter alone. *)
Theorem make_path_adds_client_closed_removes cfg self context url c :
  (∀ path, in_table self path →
           in_table (after (make_path cfg self context url)) path) ∧
  (∀ k, is_Some (parent_instance self !! k) →
        is_Some (parent_instance (after (make_path cfg self context url)) !! k)) ∧
  (∀ path, in_table (after (client_closed self c)) path → in_table self path) ∧
  (∀ k f, parent_instance (after (client_closed self c)) !! k = Some f →
          parent_instance self !! k = Some f) ∧
  proxy (after (client_closed self c)) = proxy self.
Proof.
  split_and!.
  - intros path Hin. unfold in_table in *.
    destruct (make_path_pathsRefs cfg self context url) as [-> | ->]; [done|].
    rewrite lookup_insert. case_decide; eauto.
  - intros k Hk.
    destruct (make_path_outcome cfg self context url)
      as [(_ & -> & _) | (ctx & -> & E1 & E2 & E3)]; [done|].
    destruct (make_path_admitted cfg self ctx url E1 E2 E3) as (_ & _ & _ & H).
    destruct (pathsRefs (p self) !! abspath url);
      destruct H as (_ & _ & -> & _); [done|].
    rewrite !lookup_insert. repeat case_decide; eauto.
  - intros path. apply client_closed_entries.
  - intros k f Hf.
    by apply (lookup_weaken _ _ _ _ Hf), client_closed_mounts_subseteq.
  - destruct (clientsToPaths (p self) !! c) as [held|] eqn:Ec.
    + by destruct (client_closed_tracked self c held Ec) as (_ & _ & -> & _).
    + by rewrite client_closed_untracked.
Qed.

(** X15.  In the client table of a registry no client is listed with an
    empty set of paths, whatever calls are made. *)
Theorem tracked_clients_hold_a_path cfg cb calls c held :
  clientsToPaths (p (run cfg (rtsp_mount_points_new cb) calls).2) !! c = Some held →
  held ≠ ∅.
Proof.
  revert c held.
  apply (run_invariant
           (λ self, ∀ c held, clientsToPaths (p self) !! c = Some held → held ≠ ∅)).
  - intros self call Hinv c held.
    destruct call as [context url | c0]; simpl.
    + destruct (make_path_outcome cfg self context url)
        as [(_ & -> & _) | (ctx & -> & E1 & E2 & E3)]; [apply Hinv|].
      destruct (make_path_admitted cfg self ctx url E1 E2 E3) as (_ & _ & -> & _).
      rewrite admit_client_lookup. case_decide; [|apply Hinv].
      intros [= <-].
      destruct (clientsToPaths (p self) !! client ctx); set_solver.
    + destruct (clientsToPaths (p self) !! c0) as [held0|] eqn:Ec.
      * destruct (client_closed_tracked self c0 held0 Ec) as (_ & -> & _).
        rewrite lookup_delete. case_decide; [done|apply Hinv].
      * rewrite client_closed_untracked by done. apply Hinv.
  - intros c held. simpl. by rewrite lookup_empty.
Qed.

Lemma tracked_clients_hold_a_path_witness :
  let calls :=
    [CallMakePath (Some (Ex.ctx Ex.A)) (Ex.play "/cam1");
     CallMakePath (Some (Ex.ctx Ex.A)) (Ex.record "/cam2")] in
  clientsToPaths (p (run Ex.unlimited Ex.fresh calls).2) !! Ex.A
    = Some {["/cam1"; "/cam2"]} ∧
  ({["/cam1"; "/cam2"]} : gset string) ≠ ∅.
Proof.
  intros calls.
  assert (clientsToPaths (p (run Ex.unlimited Ex.fresh calls).2) !! Ex.A
          = Some {["/cam1"; "/cam2"]}) as H by reflexivity.
  split; [exact H|].
  apply (tracked_clients_hold_a_path Ex.unlimited Ex.allow_all calls Ex.A _ H).
Defined.
